(** * nfqueue: a shallow embedding of [nfqueue.go]

    The Go package binds libnetfilter_queue through cgo.  Every C function is
    an event of a trace; what the C side answers is drawn from an environment,
    so each theorem below holds for every behaviour of the kernel library.
    Go pointers to [Queue] are locations of a heap, the package-level
    [queueRegistry] is part of the same world, and a Go panic is an outcome of
    its own. *)

From Stdlib Require Import ZArith String Ascii List Lia.
From Stdlib Require Import Strings.Byte.
From stdpp Require Import base gmap strings pretty list sorting.

Local Open Scope string_scope.
Local Open Scope list_scope.
Local Open Scope Z_scope.

(** Go's [error]: [None] is [nil], [Some msg] an error with that message. *)
Definition error : Type := option string.

Module errors.
Definition New (msg : string) : error := Some msg.
End errors.

(** ** fmt: the two verbs the package uses *)

Module fmt.

(** One digit, uppercase above nine, as [%X] prints it. *)
Definition digit (d : N) : ascii :=
  if (d <? 10)%N then ascii_of_N (48 + d) else ascii_of_N (55 + d).

Fixpoint digits (base : N) (fuel : nat) (n : N) (acc : string) : string :=
  match fuel with
  | O => acc
  | S fuel' =>
      let acc' := String (digit (n mod base)) acc in
      if (n / base =? 0)%N then acc' else digits base fuel' (n / base) acc'
  end.

(** The numeral of [n] in [base]; the bit size of [n] bounds its length. *)
Definition numeral (base : N) (n : N) : string :=
  digits base (S (N.to_nat (N.size n))) n "".

Fixpoint zeros (k : nat) : string :=
  match k with O => "" | S k' => String "0" (zeros k') end.

(** Left padding with ['0'] up to [width], as the flag [0] asks. *)
Definition pad0 (width : nat) (s : string) : string :=
  zeros (width - String.length s) +:+ s.

Definition signed (base : N) (width : nat) (x : Z) : string :=
  if x <? 0 then "-" +:+ pad0 (width - 1) (numeral base (Z.to_N (- x)))
  else pad0 width (numeral base (Z.to_N x)).

(** [%d] *)
Definition verb_d (x : Z) : string := signed 10 0 x.

(** [%02X] *)
Definition verb_02X (x : Z) : string := signed 16 2 x.

(** [Sprintf] for formats made of literal text, [%d] and [%02X]; an operand
    that is missing prints as Go prints it. *)
Fixpoint Sprintf (format : string) (a : list Z) : string :=
  match format with
  | EmptyString => EmptyString
  | String "%" (String "d" rest) =>
      match a with
      | x :: a' => verb_d x +:+ Sprintf rest a'
      | [] => "%!d(MISSING)" +:+ Sprintf rest []
      end
  | String "%" (String "0" (String "2" (String "X" rest))) =>
      match a with
      | x :: a' => verb_02X x +:+ Sprintf rest a'
      | [] => "%!X(MISSING)" +:+ Sprintf rest []
      end
  | String c rest => String c (Sprintf rest a)
  end.

Definition Errorf (format : string) (a : list Z) : error :=
  Some (Sprintf format a).

End fmt.

(** ** Integer conversions *)

(** [C.u_int32_t(x)] of a Go [int]. *)
Definition u_int32_t (x : Z) : Z := x mod 2 ^ 32.

(** [int(x)] of a [uint32]; [int] has 64 bits where the package builds
    (it links against [/usr/lib64]). *)
Definition int (x : Z) : Z := (x + 2 ^ 63) mod 2 ^ 64 - 2 ^ 63.

(** ** Outcomes: a value, or a run-time panic *)

Inductive outcome (A : Type) : Type :=
| Ret (a : A)
| Panic (msg : string).
Arguments Ret {A} a.
Arguments Panic {A} msg.

#[global] Instance outcome_ret : MRet outcome := λ A a, Ret a.
#[global] Instance outcome_bind : MBind outcome := λ A B f m,
  match m with Ret a => f a | Panic msg => Panic msg end.

(** [s[i]] on a slice: out of range is a panic. *)
Definition index {A : Type} (s : list A) (i : nat) : outcome A :=
  match s !! i with
  | Some x => Ret x
  | None => Panic "index out of range"
  end.

(** ** The C side *)

(** C pointers and Go pointers to [Queue] are plain numbers here; [nil] is
    the null pointer of both. *)
Definition nil : Z := 0.

Module C.

(** A call into libnetfilter_queue, libnfnetlink, libc or the glue of
    [nfqueue.h], with its actual arguments.  A buffer argument is the
    memory the pointer leads to, [None] for a null pointer. *)
Inductive call : Type :=
| nfq_open
| nfqueue_create_queue (h : Z) (queue_id : Z)
| nfq_set_mode (qh : Z) (mode : Z) (range : Z)
| nfq_set_queue_maxlen (qh : Z) (queuelen : Z)
| nfq_set_queue_flags (qh : Z) (mask : Z) (flags : Z)
| nfq_fd (h : Z)
| nfq_nfnlh (h : Z)
| nfnl_rcvbufsiz (nfnlh : Z) (size : Z)
| nfqueue_loop (h : Z) (fd : Z)
| close (fd : Z)
| nfq_destroy_queue (qh : Z)
| nfq_close (h : Z)
| nfq_set_verdict (qh : Z) (id : Z) (verdict : Z) (len : Z)
    (buffer : option (list byte)).

End C.

(** What happened at the boundary: the call and what it returned. *)
Definition Event : Type := C.call * Z.

Module net.
Record Interface : Type := { Index : Z; Name : string }.
End net.

(** Everything the file takes from outside: the constants of the C headers,
    the answers of the C functions (which may depend on all that happened
    before), the interface table behind [net.InterfaceByIndex], and the
    type of the values that implement [PacketHandler]. *)
Class Env : Type := {
  PacketHandler : Type;
  NF_DROP : Z;
  NF_ACCEPT : Z;
  NFQNL_COPY_PACKET : Z;
  MAX_PACKET_SIZE : Z;
  native : list Event → C.call → Z;
  InterfaceByIndex : Z → net.Interface + string
}.

(** ** Data model *)

Definition QueueFlag : Type := Z.

Definition FailOpen : QueueFlag := Z.shiftl 1 0.
Definition Conntrack : QueueFlag := Z.shiftl 1 1.
Definition GSO : QueueFlag := Z.shiftl 1 2.
Definition UIDGid : QueueFlag := Z.shiftl 1 3.
Definition Secctx : QueueFlag := Z.shiftl 1 4.

Record QueueConfig : Type := {
  MaxPackets : Z;
  QueueFlags : list QueueFlag;
  BufferSize : Z
}.

Record PacketMeta : Type := {
  HasUID : bool;
  HasGID : bool;
  UID : Z;
  GID : Z;
  InDev : Z;
  OutDev : Z;
  PhysInDev : Z;
  PhysOutDev : Z;
  NFMark : Z;
  HWAddr : list byte
}.

(** Addresses of [Queue] values. *)
Definition loc : Type := positive.

Module Queue.
(** [cfg] is a pointer in the source: [None] is the nil of a [Queue] that
    [NewQueue] did not build. *)
Record t `{Env} : Type := {
  ID : Z;
  handler : PacketHandler;
  cfg : option QueueConfig;
  h : Z;
  qh : Z;
  fd : Z
}.

Definition set_h `{Env} (v : Z) (Q : t) : t :=
  {| ID := ID Q; handler := handler Q; cfg := cfg Q;
     h := v; qh := qh Q; fd := fd Q |}.
Definition set_qh `{Env} (v : Z) (Q : t) : t :=
  {| ID := ID Q; handler := handler Q; cfg := cfg Q;
     h := h Q; qh := v; fd := fd Q |}.
Definition set_fd `{Env} (v : Z) (Q : t) : t :=
  {| ID := ID Q; handler := handler Q; cfg := cfg Q;
     h := h Q; qh := qh Q; fd := v |}.
End Queue.

Module Packet.
Record t : Type := {
  Buffer : list byte;
  Meta : PacketMeta;
  id : Z;
  q : loc
}.
End Packet.

(** ** The world and the monad of Go code *)

Record World `{Env} : Type := {
  trace : list Event;
  heap : gmap loc Queue.t;
  queueRegistry : gmap Z loc
}.

Definition Go `{Env} (A : Type) : Type := World → outcome A * World.

#[global] Instance Go_ret `{Env} : MRet Go := λ A a w, (Ret a, w).
#[global] Instance Go_bind `{Env} : MBind Go := λ A B f m w,
  match m w with
  | (Ret a, w') => f a w'
  | (Panic msg, w') => (Panic msg, w')
  end.

Section Primitives.
Context `{Env}.

Definition panic {A : Type} (msg : string) : Go A := λ w, (Panic msg, w).

(** A cgo call: the environment answers, the trace grows by one event. *)
Definition call (c : C.call) : Go Z := λ w,
  let r := native (trace w) c in
  (Ret r,
   {| trace := trace w ++ [(c, r)]; heap := heap w;
      queueRegistry := queueRegistry w |}).

Definition nil_dereference : string :=
  "invalid memory address or nil pointer dereference".

(** [*q]; an address the heap does not hold stands for a nil pointer. *)
Definition deref (q : loc) : Go Queue.t := λ w,
  match heap w !! q with
  | Some Q => (Ret Q, w)
  | None => (Panic nil_dereference, w)
  end.

(** [q.field = v], as an update of [*q]. *)
Definition assign (q : loc) (f : Queue.t → Queue.t) : Go unit := λ w,
  match heap w !! q with
  | Some Q =>
      (Ret tt,
       {| trace := trace w; heap := <[q := f Q]> (heap w);
          queueRegistry := queueRegistry w |})
  | None => (Panic nil_dereference, w)
  end.

(** [q.cfg], dereferenced. *)
Definition deref_cfg (q : loc) : Go QueueConfig :=
  Q ← deref q;
  match Queue.cfg Q with
  | Some c => mret c
  | None => panic nil_dereference
  end.

(** [&Queue{...}]: a new address. *)
Definition new (Q : Queue.t) : Go loc := λ w,
  let l := fresh (dom (heap w)) in
  (Ret l,
   {| trace := trace w; heap := <[l := Q]> (heap w);
      queueRegistry := queueRegistry w |}).

(** A statement that may leave the function: [Some e] says the function
    returned [e], [None] that control goes on to the next statement. *)
Definition returns (e : error) : Go (option error) := mret (Some e).
Definition next : Go (option error) := mret None.
Definition seq (s k : Go (option error)) : Go (option error) :=
  r ← s;
  match r with
  | Some e => mret (Some e)
  | None => k
  end.

(** A function body; Go rejects a body that can end without [return]. *)
Definition func (body : Go (option error)) : Go error :=
  r ← body;
  match r with
  | Some e => mret e
  | None => panic "missing return"
  end.

End Primitives.

Notation "s ;;; k" := (seq s k) (at level 100, k at level 200, right associativity).

(** ** The registry *)

Section Registry.
Context `{Env}.

(** Modelled from the spec: [queueRegistry], with its methods [Register]
    and [Lookup], is declared in a file of the package that is not part of
    the sources at hand.  Spec 4.1: [Register(id, queue)] unconditionally
    overwrites any existing entry for [id] and signals no error;
    [Lookup(id)] returns the queue or "not found". *)
Definition Register (queueID : Z) (q : loc) : Go unit := λ w,
  (Ret tt,
   {| trace := trace w; heap := heap w;
      queueRegistry := <[queueID := q]> (queueRegistry w) |}).

Definition Lookup (queueID : Z) : Go (option loc) := λ w,
  (Ret (queueRegistry w !! queueID), w).

End Registry.

(** ** PacketMeta *)

Section Meta.
Context `{Env}.

Definition InDevName (m : PacketMeta) : string :=
  match InterfaceByIndex (int (InDev m)) with
  | inr _ => ""
  | inl iface => net.Name iface
  end.

Definition OutDevName (m : PacketMeta) : string :=
  match InterfaceByIndex (int (OutDev m)) with
  | inr _ => ""
  | inl iface => net.Name iface
  end.

Definition PhysInDevName (m : PacketMeta) : string :=
  match InterfaceByIndex (int (PhysInDev m)) with
  | inr _ => ""
  | inl iface => net.Name iface
  end.

Definition PhysOutDevName (m : PacketMeta) : string :=
  match InterfaceByIndex (int (PhysOutDev m)) with
  | inr _ => ""
  | inl iface => net.Name iface
  end.

End Meta.

(** A byte as the operand of a verb. *)
Definition operand (b : byte) : Z := Z.of_N (Byte.to_N b).

Definition MACAddr (m : PacketMeta) : outcome string :=
  b0 ← index (HWAddr m) 0;
  b1 ← index (HWAddr m) 1;
  b2 ← index (HWAddr m) 2;
  b3 ← index (HWAddr m) 3;
  b4 ← index (HWAddr m) 4;
  b5 ← index (HWAddr m) 5;
  mret (fmt.Sprintf "%02X:%02X:%02X:%02X:%02X:%02X"
          (operand <$> [b0; b1; b2; b3; b4; b5])).

(** ** Packet: the verdicts *)

Section Verdict.
Context `{Env}.

Definition setVerdict (p : Packet.t) (verdict len : Z)
    (buffer : option (list byte)) : Go error :=
  func (
    (Q ← deref (Packet.q p);
     r ← call (C.nfq_set_verdict (Queue.qh Q) (Packet.id p) verdict len buffer);
     if r <? 0 then
       returns (fmt.Errorf "Error setting verdict %d for packet %d"
                  [verdict; Packet.id p])
     else next) ;;;
    returns None).

Definition Accept (p : Packet.t) : Go error :=
  setVerdict p NF_ACCEPT 0 None.

Definition Drop (p : Packet.t) : Go error :=
  setVerdict p NF_DROP 0 None.

(** [&buffer[0]] is evaluated with the other operands, before the call;
    the pointer it gives leads to the bytes of [buffer]. *)
Definition Modify (p : Packet.t) (buffer : list byte) : Go error :=
  match index buffer 0 with
  | Ret _ =>
      setVerdict p NF_ACCEPT (u_int32_t (Z.of_nat (length buffer))) (Some buffer)
  | Panic msg => panic msg
  end.

End Verdict.

(** ** Queue: construction, Start and Stop *)

Section Lifecycle.
Context `{Env}.

Definition NewQueue (queueID : Z) (handler : PacketHandler)
    (cfg : option QueueConfig) : Go loc :=
  let cfg :=
    match cfg with
    | None => {| MaxPackets := 0; QueueFlags := []; BufferSize := 0 |}
    | Some c => c
    end in
  q ← new {| Queue.ID := queueID; Queue.handler := handler;
             Queue.cfg := Some cfg;
             Queue.h := nil; Queue.qh := nil; Queue.fd := 0 |};
  Register queueID q;;
  mret q.

(** The loop over [q.cfg.QueueFlags], from the zero value of [flags]. *)
Definition fold_flags (QueueFlags : list QueueFlag) : Z :=
  fold_left (λ flags flag, Z.land flags flag) QueueFlags 0.

Definition Start (q : loc) : Go error :=
  func (
    (r ← call C.nfq_open;
     assign q (Queue.set_h r);;
     Q ← deref q;
     if Queue.h Q =? nil then returns (errors.New "Error in nfq_open")
     else next) ;;;
    (Q ← deref q;
     r ← call (C.nfqueue_create_queue (Queue.h Q) (Queue.ID Q));
     assign q (Queue.set_qh r);;
     Q ← deref q;
     if Queue.qh Q =? nil then returns (errors.New "Error in nfqueue_create_queue")
     else next) ;;;
    (Q ← deref q;
     r ← call (C.nfq_set_mode (Queue.qh Q) NFQNL_COPY_PACKET MAX_PACKET_SIZE);
     if r <? 0 then returns (errors.New "Error in nfq_set_mode")
     else next) ;;;
    (c ← deref_cfg q;
     if 0 <? MaxPackets c then
       Q ← deref q;
       ret ← call (C.nfq_set_queue_maxlen (Queue.qh Q) (MaxPackets c));
       if ret <? 0 then returns (errors.New "Error in nfq_set_queue_maxlen")
       else next
     else next) ;;;
    (c ← deref_cfg q;
     if 0 <? Z.of_nat (length (QueueFlags c)) then
       let flags := fold_flags (QueueFlags c) in
       Q ← deref q;
       ret ← call (C.nfq_set_queue_flags (Queue.qh Q) flags flags);
       if ret <? 0 then returns (errors.New "Error in nfq_set_queue_flags")
       else next
     else next) ;;;
    (Q ← deref q;
     r ← call (C.nfq_fd (Queue.h Q));
     assign q (Queue.set_fd r);;
     Q ← deref q;
     if Queue.fd Q <? 0 then returns (errors.New "Error in nfq_fd")
     else next) ;;;
    (c ← deref_cfg q;
     if 0 <? BufferSize c then
       Q ← deref q;
       nfnlh ← call (C.nfq_nfnlh (Queue.h Q));
       call (C.nfnl_rcvbufsiz nfnlh (BufferSize c));;
       next
     else next) ;;;
    (Q ← deref q;
     ret ← call (C.nfqueue_loop (Queue.h Q) (Queue.fd Q));
     if ret <? 0 then returns (errors.New "Error in nfqueue_loop")
     else next) ;;;
    returns None).

Definition Stop (q : loc) : Go error :=
  func (
    (Q ← deref q;
     r ← call (C.close (Queue.fd Q));
     if r <? 0 then returns (errors.New "Error closing fd")
     else next) ;;;
    (Q ← deref q;
     r ← call (C.nfq_destroy_queue (Queue.qh Q));
     if r <? 0 then returns (errors.New "Error in nfq_destroy_queue")
     else next) ;;;
    (Q ← deref q;
     r ← call (C.nfq_close (Queue.h Q));
     if r <? 0 then returns (errors.New "Error in nfq_close")
     else next) ;;;
    returns None).

End Lifecycle.

(** ** Concrete environments *)

(** The interface table of a host, searched as [net.InterfaceByIndex]
    searches it. *)
Definition lookup_interface (table : list net.Interface) (index : Z)
    : net.Interface + string :=
  if index <=? 0 then inr "invalid network interface index"
  else
    match List.find (λ ifi, net.Index ifi =? index) table with
    | Some ifi => inl ifi
    | None => inr "no such network interface"
    end.

Definition host_table : list net.Interface :=
  [ {| net.Index := 1; net.Name := "lo" |};
    {| net.Index := 2; net.Name := "eth0" |} ].

(** An environment with the constants of the Linux headers, a C side given
    by [answer] and the interfaces of [host_table]. *)
Definition linux (answer : list Event → C.call → Z) : Env :=
  {| PacketHandler := unit;
     NF_DROP := 0;
     NF_ACCEPT := 1;
     NFQNL_COPY_PACKET := 2;
     MAX_PACKET_SIZE := 65535;
     native := answer;
     InterfaceByIndex := lookup_interface host_table |}.

(** A C side on which every call succeeds: handles are 7 and 9, the
    descriptor is 3. *)
Definition all_ok (_ : list Event) (c : C.call) : Z :=
  match c with
  | C.nfq_open => 7
  | C.nfqueue_create_queue _ _ => 9
  | C.nfq_fd _ => 3
  | C.nfq_nfnlh _ => 11
  | _ => 0
  end.

(** The same C side, except that the calls [fails] selects return -1
    (a null pointer from the two that return one). *)
Definition failing (fails : C.call → bool) (tr : list Event) (c : C.call) : Z :=
  if fails c then
    match c with
    | C.nfq_open | C.nfqueue_create_queue _ _ => nil
    | _ => -1
    end
  else all_ok tr c.

Definition is_close (c : C.call) : bool :=
  match c with C.close _ => true | _ => false end.
Definition is_set_mode (c : C.call) : bool :=
  match c with C.nfq_set_mode _ _ _ => true | _ => false end.
Definition is_set_verdict (c : C.call) : bool :=
  match c with C.nfq_set_verdict _ _ _ _ _ => true | _ => false end.

Definition empty_world `{Env} : World :=
  {| trace := []; heap := ∅; queueRegistry := ∅ |}.

Definition full_config : QueueConfig :=
  {| MaxPackets := 1024; QueueFlags := [Conntrack; UIDGid]; BufferSize := 4096 |}.

(** Run [NewQueue] and then [body] on the queue it returns, from the empty
    world. *)
Definition with_queue `{Env} {A : Type} (handler : PacketHandler)
    (queueID : Z) (cfg : option QueueConfig) (body : loc → Go A)
    : outcome A * World :=
  (q ← NewQueue queueID handler cfg; body q) empty_world.

(** A queue as [Start] leaves it on [all_ok], and a world that holds it at
    address 1. *)
Definition started_queue `{Env} (handler : PacketHandler)
    (cfg : option QueueConfig) : Queue.t :=
  {| Queue.ID := 5; Queue.handler := handler; Queue.cfg := cfg;
     Queue.h := 7; Queue.qh := 9; Queue.fd := 3 |}.

Definition world_of `{Env} (Q : Queue.t) : World :=
  {| trace := []; heap := {[ 1%positive := Q ]}; queueRegistry := ∅ |}.

Definition meta_of (hw : list byte) (indev outdev physin physout : Z)
    : PacketMeta :=
  {| HasUID := false; HasGID := false; UID := 0; GID := 0;
     InDev := indev; OutDev := outdev;
     PhysInDev := physin; PhysOutDev := physout;
     NFMark := 0; HWAddr := hw |}.

Definition packet_of (pid : Z) : Packet.t :=
  {| Packet.Buffer := []; Packet.Meta := meta_of [] 0 0 0 0;
     Packet.id := pid; Packet.q := 1%positive |}.

(** ** Vocabulary of the statements *)

(** The place of a C call in the order [Start] follows; 0 for a call that
    is not one of [Start]'s. *)
Definition start_order (c : C.call) : nat :=
  match c with
  | C.nfq_open => 1
  | C.nfqueue_create_queue _ _ => 2
  | C.nfq_set_mode _ _ _ => 3
  | C.nfq_set_queue_maxlen _ _ => 4
  | C.nfq_set_queue_flags _ _ _ => 5
  | C.nfq_fd _ => 6
  | C.nfq_nfnlh _ => 7
  | C.nfnl_rcvbufsiz _ _ => 8
  | C.nfqueue_loop _ _ => 9
  | _ => 0
  end.

(** The place of a C call in the order [Stop] follows; 0 for a call that
    is not one of [Stop]'s. *)
Definition stop_order (c : C.call) : nat :=
  match c with
  | C.close _ => 1
  | C.nfq_destroy_queue _ => 2
  | C.nfq_close _ => 3
  | _ => 0
  end.

(** The calls that give a resource back. *)
Definition releases (c : C.call) : bool :=
  match c with
  | C.close _ | C.nfq_destroy_queue _ | C.nfq_close _ => true
  | _ => false
  end.

(** How a C call tells its failure: a null pointer from the two that return
    a handle, a negative number from the others.  The two calls of the
    buffer-size step have no failure the package looks at. *)
Definition reports_failure (ev : Event) : bool :=
  match ev with
  | (C.nfq_open, r) | (C.nfqueue_create_queue _ _, r) => r =? nil
  | (C.nfq_nfnlh _, _) | (C.nfnl_rcvbufsiz _ _, _) => false
  | (_, r) => r <? 0
  end.

(** The error kind of each step, by the message that carries it. *)
Definition step_error (c : C.call) : string :=
  match c with
  | C.nfq_open => "Error in nfq_open"
  | C.nfqueue_create_queue _ _ => "Error in nfqueue_create_queue"
  | C.nfq_set_mode _ _ _ => "Error in nfq_set_mode"
  | C.nfq_set_queue_maxlen _ _ => "Error in nfq_set_queue_maxlen"
  | C.nfq_set_queue_flags _ _ _ => "Error in nfq_set_queue_flags"
  | C.nfq_fd _ => "Error in nfq_fd"
  | C.nfqueue_loop _ _ => "Error in nfqueue_loop"
  | C.close _ => "Error closing fd"
  | C.nfq_destroy_queue _ => "Error in nfq_destroy_queue"
  | C.nfq_close _ => "Error in nfq_close"
  | _ => ""
  end.

Definition start_errors : list string :=
  [ "Error in nfq_open"; "Error in nfqueue_create_queue";
    "Error in nfq_set_mode"; "Error in nfq_set_queue_maxlen";
    "Error in nfq_set_queue_flags"; "Error in nfq_fd";
    "Error in nfqueue_loop" ].

Definition stop_errors : list string :=
  [ "Error closing fd"; "Error in nfq_destroy_queue"; "Error in nfq_close" ].

(** What a run returns when [lst] was its last call: the error of that call
    if it failed, [nil] otherwise. *)
Definition error_after (lst : Event) : error :=
  if reports_failure lst then Some (step_error lst.1) else None.

(** The positions of [Start]'s order that a run went through. *)
Definition orders (evs : list Event) : list nat :=
  (start_order ∘ fst) <$> evs.

(** Whether a run got as far as position [k]. *)
Definition reached (k : nat) (evs : list Event) : bool :=
  existsb (λ ev, k <=? start_order ev.1)%nat evs.

(** The queue depths, flag masks and buffer sizes a run handed to the
    kernel. *)
Definition maxlen_calls (evs : list Event) : list Z :=
  omap (λ ev, match ev.1 with
              | C.nfq_set_queue_maxlen _ n => Some n
              | _ => None
              end) evs.

Definition flags_calls (evs : list Event) : list (Z * Z) :=
  omap (λ ev, match ev.1 with
              | C.nfq_set_queue_flags _ mask flags => Some (mask, flags)
              | _ => None
              end) evs.

Definition rcvbuf_calls (evs : list Event) : list Z :=
  omap (λ ev, match ev.1 with
              | C.nfnl_rcvbufsiz _ n => Some n
              | _ => None
              end) evs.

(** A value in the range of [uint32]. *)
Definition is_uint32 (x : Z) : Prop := 0 ≤ x < 2 ^ 32.

(** The sixteen digits of uppercase hexadecimal, and a byte as two of them. *)
Definition hex_digit (d : N) : ascii :=
  match String.get (N.to_nat d) "0123456789ABCDEF" with
  | Some c => c
  | None => "?"%char
  end.

Definition hex_pair (b : byte) : string :=
  String (hex_digit (Byte.to_N b / 16)) (String (hex_digit (Byte.to_N b mod 16)) "").

Definition name_or_empty (r : net.Interface + string) : string :=
  match r with
  | inl ifi => net.Name ifi
  | inr _ => ""
  end.

(** The message of a failed verdict: the verdict and the packet id, as
    decimal numerals. *)
Definition verdict_error (verdict pid : Z) : string :=
  "Error setting verdict " +:+ pretty verdict +:+
  " for packet " +:+ pretty pid.

(** The one verdict call of packet [p] on the binding of queue [Q]. *)
Definition verdict_call `{Env} (p : Packet.t) (Q : Queue.t) (verdict len : Z)
    (buffer : option (list byte)) : C.call :=
  C.nfq_set_verdict (Queue.qh Q) (Packet.id p) verdict len buffer.

(** [m], run in [w], makes the call [c] and no other, leaves heap and
    registry alone, and returns [nil] unless the call answers with a
    negative number, when it returns an error with message [msg]. *)
Definition one_call `{Env} (m : Go error) (w : World) (c : C.call)
    (msg : string) : Prop :=
  let r := native (trace w) c in
  m w = (Ret (if r <? 0 then Some msg else None),
         {| trace := trace w ++ [(c, r)]; heap := heap w;
            queueRegistry := queueRegistry w |}).

(** ** Weakest preconditions *)

(** [m] runs from [w] to a value, without a panic, and [post] holds of the
    value and the world it leaves. *)
Definition wp `{Env} {A : Type} (m : Go A) (w : World)
    (post : A → World → Prop) : Prop :=
  ∃ a w', m w = (Ret a, w') ∧ post a w'.

(** [m] runs from [w] to an outcome, a value or a panic, and [post] holds
    of the outcome and the world it leaves. *)
Definition wpo `{Env} {A : Type} (m : Go A) (w : World)
    (post : outcome A → World → Prop) : Prop :=
  ∃ o w', m w = (o, w') ∧ post o w'.

(** ** Vocabulary of the further statements *)

(** What the call at position [k] of [Start]'s order returned in a run;
    0 when the run made no such call. *)
Definition returned (k : nat) (evs : list Event) : Z :=
  match List.find (λ ev, (start_order ev.1 =? k)%nat) evs with
  | Some ev => ev.2
  | None => 0
  end.

(** A run that ended before position [k] of [Start]'s order, on a call
    that reported a failure, with the error of that call. *)
Definition failed_before (k : nat) (evs : list Event) (e : error) : Prop :=
  ∃ lst, last evs = Some lst ∧ reports_failure lst = true ∧
         (start_order lst.1 < k)%nat ∧ e = Some (step_error lst.1).

(** The calls of a whole run of [Start] on a queue with id [ID] and
    configuration [c], when the context, the binding, the descriptor and
    the netlink handle that the C side returned are [h], [qh], [fd] and
    [nfnlh]. *)
Definition start_script `{Env} (ID : Z) (c : QueueConfig)
    (h qh fd nfnlh : Z) : list C.call :=
  [ C.nfq_open; C.nfqueue_create_queue h ID;
    C.nfq_set_mode qh NFQNL_COPY_PACKET MAX_PACKET_SIZE ] ++
  (if 0 <? MaxPackets c
   then [C.nfq_set_queue_maxlen qh (MaxPackets c)] else []) ++
  (if 0 <? Z.of_nat (length (QueueFlags c))
   then [C.nfq_set_queue_flags qh (fold_flags (QueueFlags c))
           (fold_flags (QueueFlags c))]
   else []) ++
  [C.nfq_fd h] ++
  (if 0 <? BufferSize c
   then [C.nfq_nfnlh h; C.nfnl_rcvbufsiz nfnlh (BufferSize c)] else []) ++
  [C.nfqueue_loop h fd].

(** The three releases of [Stop], on a descriptor, a binding and a
    context. *)
Definition stop_script (fd qh h : Z) : list C.call :=
  [C.close fd; C.nfq_destroy_queue qh; C.nfq_close h].

(** Reading a hardware address back from its text: a hexadecimal digit,
    a pair of them as a byte, and pairs with a colon between them. *)
Definition parse_hex_digit (c : ascii) : option N :=
  let n := N_of_ascii c in
  if (48 <=? n)%N && (n <=? 57)%N then Some (n - 48)%N
  else if (65 <=? n)%N && (n <=? 70)%N then Some (n - 55)%N
  else None.

Definition parse_hex_pair (hi lo : ascii) : option byte :=
  h ← parse_hex_digit hi;
  l ← parse_hex_digit lo;
  Byte.of_N (16 * h + l).

Fixpoint parse_mac (s : string) : option (list byte) :=
  match s with
  | String hi (String lo rest) =>
      b ← parse_hex_pair hi lo;
      match rest with
      | EmptyString => Some [b]
      | String ":" rest' => bs ← parse_mac rest'; Some (b :: bs)
      | _ => None
      end
  | _ => None
  end.

(** A text with no blank in it, as a numeral is. *)
Definition no_blank (s : string) : Prop :=
  Forall (λ c, c ≠ " "%char) (list_ascii_of_string s).

(** * Theorems *)

(** ** Rules of the weakest precondition *)

Section Rules.
Context `{Env}.

Lemma wp_ret {A} (a : A) w post : post a w → wp (mret a) w post.
Proof. intros Hp. exists a, w. split; [reflexivity | exact Hp]. Qed.

Lemma wp_bind {A B} (m : Go A) (f : A → Go B) w post :
  wp m w (λ a w', wp (f a) w' post) → wp (m ≫= f) w post.
Proof.
  intros (a & w' & Hm & b & w'' & Hf & Hp).
  exists b, w''. split; [| exact Hp].
  unfold mbind, Go_bind. rewrite Hm. exact Hf.
Qed.

Lemma wp_call (c : C.call) w post :
  (∀ r, r = native (trace w) c →
     post r {| trace := trace w ++ [(c, r)]; heap := heap w;
               queueRegistry := queueRegistry w |}) →
  wp (call c) w post.
Proof. intros Hp. eexists _, _. split; [reflexivity |]. by apply Hp. Qed.

Lemma wp_deref q Q w post :
  heap w !! q = Some Q → post Q w → wp (deref q) w post.
Proof. intros Hq Hp. exists Q, w. unfold deref. by rewrite Hq. Qed.

Lemma wp_assign q f Q w post :
  heap w !! q = Some Q →
  post tt {| trace := trace w; heap := <[q := f Q]> (heap w);
             queueRegistry := queueRegistry w |} →
  wp (assign q f) w post.
Proof. intros Hq Hp. eexists _, _. unfold assign. rewrite Hq. eauto. Qed.

Lemma wp_deref_cfg q Q c w post :
  heap w !! q = Some Q → Queue.cfg Q = Some c → post c w →
  wp (deref_cfg q) w post.
Proof.
  intros Hq Hc Hp. unfold deref_cfg. apply wp_bind.
  apply (wp_deref q Q); [done |]. rewrite Hc. by apply wp_ret.
Qed.

Lemma wp_new Q w post :
  post (fresh (dom (heap w)))
    {| trace := trace w; heap := <[fresh (dom (heap w)) := Q]> (heap w);
       queueRegistry := queueRegistry w |} →
  wp (new Q) w post.
Proof. intros Hp. eexists _, _. split; [reflexivity | exact Hp]. Qed.

Lemma wp_Register queueID q w post :
  post tt {| trace := trace w; heap := heap w;
             queueRegistry := <[queueID := q]> (queueRegistry w) |} →
  wp (Register queueID q) w post.
Proof. intros Hp. eexists _, _. split; [reflexivity | exact Hp]. Qed.

Lemma wp_returns e w post : post (Some e) w → wp (returns e) w post.
Proof. apply wp_ret. Qed.

Lemma wp_next w post : post None w → wp next w post.
Proof. apply wp_ret. Qed.

Lemma wp_seq (s k : Go (option error)) w post :
  wp s w (λ r w', match r with
                  | Some e => post (Some e) w'
                  | None => wp k w' post
                  end) →
  wp (s ;;; k) w post.
Proof.
  intros (r & w' & Hs & Hp). unfold seq. apply wp_bind.
  exists r, w'. split; [done |].
  destruct r; [by apply wp_ret | done].
Qed.

Lemma wp_func (body : Go (option error)) w post :
  wp body w (λ r w', match r with
                     | Some e => post e w'
                     | None => False
                     end) →
  wp (func body) w post.
Proof.
  intros (r & w' & Hs & Hp). unfold func. apply wp_bind.
  exists r, w'. split; [done |]. destruct r; [by apply wp_ret | done].
Qed.

Lemma wp_mono {A} (m : Go A) w (post post' : A → World → Prop) :
  (∀ a w', post a w' → post' a w') → wp m w post → wp m w post'.
Proof. intros Himp (a & w' & Hm & Hp). exists a, w'. eauto. Qed.

End Rules.

(** The heap at the address a statement reads: as the context says, or as
    the last assignment left it. *)
Ltac wp_heap :=
  cbn [trace heap queueRegistry];
  first [ eassumption | apply lookup_insert_eq ].

Ltac wp_rule :=
  lazymatch goal with
  | |- wp (func _) _ _ => apply wp_func
  | |- wp (seq _ _) _ _ => apply wp_seq
  | |- wp (mbind _ _) _ _ => apply wp_bind
  | |- wp (call _) _ _ => apply wp_call; intros ? _
  | |- wp (deref _) _ _ => eapply wp_deref; [wp_heap |]
  | |- wp (deref_cfg _) _ _ =>
      eapply wp_deref_cfg;
        [wp_heap | cbn; first [eassumption | reflexivity] |]
  | |- wp (assign _ _) _ _ => eapply wp_assign; [wp_heap |]
  | |- wp (new _) _ _ => apply wp_new
  | |- wp (Register _ _) _ _ => apply wp_Register
  | |- wp (returns _) _ _ => apply wp_returns
  | |- wp next _ _ => apply wp_next
  | |- wp (mret _) _ _ => apply wp_ret
  | |- wp (if ?b then _ else _) _ _ => destruct b eqn:?
  end.

(** Run the code to each of its ends. *)
Ltac wp_run := repeat (wp_rule; cbn [trace heap queueRegistry]).

Ltac rewrite_hyps :=
  repeat match goal with
         | E : _ = true |- _ => rewrite E
         | E : _ = false |- _ => rewrite E
         end.

(** A call that went well: by what it is, or by the test the code made. *)
Ltac wp_succeeded :=
  first [ reflexivity | cbn -[Z.ltb Z.eqb]; assumption ].

(** A run that ended on a failed call of an earlier step. *)
Ltac wp_failed_before :=
  eexists; split; [reflexivity |];
  split; [cbn -[Z.ltb Z.eqb]; assumption |];
  split; [cbn; lia | reflexivity].

(** The events of a finished run, read off the trace. *)
Ltac wp_events :=
  eexists; split;
  [ rewrite <- ?app_assoc; cbn [app]; reflexivity |];
  cbn -[Z.ltb Z.eqb] in *.

(** ** Flag composition *)

Lemma fold_flags_from_zero (l : list QueueFlag) (acc : Z) :
  acc = 0 → fold_left (λ flags flag, Z.land flags flag) l acc = 0.
Proof.
  revert acc. induction l as [| flag l IH]; intros acc ->; [reflexivity |].
  cbn [fold_left]. apply IH, Z.land_0_l.
Qed.

Lemma fold_flags_zero (l : list QueueFlag) : fold_flags l = 0.
Proof. by apply fold_flags_from_zero. Qed.

(** ** Start and Stop *)

Lemma step_errors_distinct : NoDup (start_errors ++ stop_errors).
Proof. compute_done. Qed.

Lemma step_error_names_step (c c' : C.call) :
  step_error c ≠ "" → step_error c' = step_error c →
  start_order c' = start_order c ∧ stop_order c' = stop_order c.
Proof. destruct c, c'; cbn; intros Hne Heq; done. Qed.

Section StartStop.
Context `{Env}.

(** C4. [Start] makes its calls in the fixed order (open context, bind
    queue id, set mode, set queue depth, set flags, get descriptor, set
    buffer size, run loop): the run begins with [nfq_open], the positions
    of its calls strictly increase, and none of the steps that are not
    optional is left out on the way.  Every call before the last
    succeeded; the run ends at the first call that reports a failure, and
    then returns the error of that very step, which is the error of no
    other step; it returns [nil] only after the loop.  No call of the run
    closes the descriptor, destroys the binding or closes the context. *)
Theorem Start_ordered_abort_without_release
    (q : loc) (w : World) (Q : Queue.t) (c : QueueConfig) :
  heap w !! q = Some Q → Queue.cfg Q = Some c →
  wp (Start q) w (λ e w', ∃ evs,
    trace w' = trace w ++ evs ∧
    head (orders evs) = Some 1%nat ∧
    StronglySorted lt (orders evs) ∧
    Forall (λ ev, releases ev.1 = false) evs ∧
    Forall (λ ev, reports_failure ev = false) (removelast evs) ∧
    ∃ lst, last evs = Some lst ∧ e = error_after lst ∧
      Forall (λ k, k ≤ start_order lst.1 → k ∈ orders evs)%nat
        [1; 2; 3; 6; 9]%nat ∧
      (e = None → start_order lst.1 = 9%nat) ∧
      (∀ c', e = Some (step_error c') →
         start_order c' = start_order lst.1)).
Proof.
  intros Hq Hc. unfold Start. wp_run.
  all: wp_events.
  all: split; [reflexivity |].
  all: split; [repeat constructor; lia |].
  all: split; [repeat constructor |].
  all: split; [repeat (constructor; [wp_succeeded |]); constructor |].
  all: eexists; split; [reflexivity |].
  all: split; [unfold error_after; cbn -[Z.ltb Z.eqb]; by rewrite_hyps |].
  all: split;
    [cbn; repeat (constructor; [intros ?; first [lia | set_solver] |]);
     constructor |].
  all: split; [done |].
  all: intros c' Hc'; unfold errors.New in Hc';
    first [discriminate | apply step_error_names_step; [done | cbn; congruence]].
Qed.

(** C9. [Start] hands a queue depth to the kernel exactly when
    [MaxPackets] is strictly positive and the run got as far as that
    step, and a buffer size exactly when [BufferSize] is strictly
    positive and the run got as far as that step; the value handed over
    is the configured one, and with a zero field the call is not made at
    all.  The run does get as far as each of the two steps, unless a call
    of an earlier step reported a failure and [Start] returned its error;
    so when [Start] returns [nil], a positive depth and a positive buffer
    size were both applied.  Whatever the buffer-size call answers, the
    run goes on to the loop, and the error [Start] returns, if any, is one
    of the seven of the other steps. *)
Theorem Start_optional_depth_and_buffer
    (q : loc) (w : World) (Q : Queue.t) (c : QueueConfig) :
  heap w !! q = Some Q → Queue.cfg Q = Some c →
  wp (Start q) w (λ e w', ∃ evs,
    trace w' = trace w ++ evs ∧
    maxlen_calls evs =
      (if (0 <? MaxPackets c) && reached 4 evs then [MaxPackets c] else []) ∧
    rcvbuf_calls evs =
      (if (0 <? BufferSize c) && reached 7 evs then [BufferSize c] else []) ∧
    (rcvbuf_calls evs ≠ [] → reached 9 evs = true) ∧
    (MaxPackets c = 0 → 4%nat ∉ orders evs) ∧
    (BufferSize c = 0 → (7%nat ∉ orders evs) ∧ (8%nat ∉ orders evs)) ∧
    (e = None ∨ ∃ msg, e = Some msg ∧ msg ∈ start_errors) ∧
    (reached 4 evs = true ∨ failed_before 4 evs e) ∧
    (reached 7 evs = true ∨ failed_before 7 evs e) ∧
    (e = None →
     maxlen_calls evs = (if 0 <? MaxPackets c then [MaxPackets c] else []) ∧
     rcvbuf_calls evs = (if 0 <? BufferSize c then [BufferSize c] else []))).
Proof.
  intros Hq Hc. unfold Start. wp_run.
  all: wp_events.
  all: split; [by rewrite ?andb_false_r |].
  all: split; [by rewrite ?andb_false_r |].
  all: split; [done |].
  all: split; [intros Hz; first [compute_done | lia] |].
  all: split; [intros Hz; first [split; compute_done | lia] |].
  all: split;
    [first [by left | right; eexists; split; [reflexivity | set_solver]] |].
  all: split; [first [by left | right; wp_failed_before] |].
  all: split; [first [by left | right; wp_failed_before] |].
  all: intros He; first [discriminate He | done].
Qed.

(** C3, as the code has it.  [Stop] closes the descriptor, destroys the
    binding and closes the context, in this order and on the values the
    queue holds; every call before the last succeeded, and the run ends
    at the first call that reports a failure, with the error of that
    step, which is the error of no other step.  It returns [nil] exactly
    when all three calls were made and none failed. *)
Theorem Stop_releases_in_order_until_failure
    (q : loc) (w : World) (Q : Queue.t) :
  heap w !! q = Some Q →
  wp (Stop q) w (λ e w', ∃ evs,
    trace w' = trace w ++ evs ∧
    heap w' = heap w ∧
    evs.*1 `prefix_of`
      [ C.close (Queue.fd Q); C.nfq_destroy_queue (Queue.qh Q);
        C.nfq_close (Queue.h Q) ] ∧
    Forall (λ ev, reports_failure ev = false) (removelast evs) ∧
    ∃ lst, last evs = Some lst ∧ e = error_after lst ∧
      (e = None → length evs = 3%nat) ∧
      (∀ c', e = Some (step_error c') →
         stop_order c' = stop_order lst.1)).
Proof.
  intros Hq. unfold Stop. wp_run.
  all: wp_events.
  all: split; [reflexivity |].
  all: split; [by eexists |].
  all: split; [repeat (constructor; [wp_succeeded |]); constructor |].
  all: eexists; split; [reflexivity |].
  all: split; [unfold error_after; cbn -[Z.ltb Z.eqb]; by rewrite_hyps |].
  all: split; [done |].
  all: intros c' Hc'; unfold errors.New in Hc';
    first [discriminate | apply step_error_names_step; [done | cbn; congruence]].
Qed.

End StartStop.

(** ** Formatting *)

Lemma append_empty_r (s : string) : s +:+ "" = s.
Proof.
  induction s as [| c s IH]; [reflexivity |].
  change (String c (s +:+ "") = String c s). by rewrite IH.
Qed.

(** [%d] prints the decimal numeral of its operand. *)
Lemma digit_decimal (d : N) : (d < 10)%N → fmt.digit d = pretty_N_char d.
Proof.
  intros Hd.
  assert (d = 0 ∨ d = 1 ∨ d = 2 ∨ d = 3 ∨ d = 4 ∨ d = 5 ∨ d = 6 ∨ d = 7
          ∨ d = 8 ∨ d = 9)%N as Hcases by lia.
  repeat (destruct Hcases as [-> | Hcases]; [reflexivity |]).
  by subst.
Qed.

Lemma digits_decimal (fuel : nat) : ∀ (n : N) (acc : string),
  (0 < n)%N → (n < 2 ^ N.of_nat fuel)%N →
  fmt.digits 10 fuel n acc = pretty_N_go n acc.
Proof.
  induction fuel as [| fuel IH]; intros n acc Hpos Hlt.
  { cbn in Hlt. lia. }
  cbn [fmt.digits]. rewrite pretty_N_go_step by done.
  rewrite digit_decimal by (apply N.mod_lt; lia).
  destruct (N.eqb_spec (n / 10) 0) as [Hz | Hnz].
  - cbv zeta. rewrite Hz. by rewrite pretty_N_go_0.
  - cbv zeta. apply IH; [by apply N.neq_0_lt_0 |].
    apply N.Div0.div_lt_upper_bound.
    rewrite Nat2N.inj_succ, N.pow_succ_r' in Hlt. lia.
Qed.

Lemma numeral_decimal (n : N) : fmt.numeral 10 n = pretty n.
Proof.
  unfold fmt.numeral, pretty, pretty_N. case_decide as Hn.
  - by subst.
  - apply digits_decimal; [lia |].
    rewrite Nat2N.inj_succ, N2Nat.id, N.pow_succ_r'.
    pose proof (N.size_gt n). lia.
Qed.

Lemma verb_d_decimal (x : Z) : fmt.verb_d x = pretty x.
Proof.
  unfold fmt.verb_d, fmt.signed, fmt.pad0.
  destruct x as [| p | p]; cbn [Z.ltb Z.compare Z.opp Z.to_N Nat.sub fmt.zeros];
    rewrite numeral_decimal; reflexivity.
Qed.

Lemma Sprintf_verdict (verdict pid : Z) :
  fmt.Sprintf "Error setting verdict %d for packet %d" [verdict; pid] =
  verdict_error verdict pid.
Proof.
  change (fmt.Sprintf _ _) with
    ("Error setting verdict " +:+ fmt.verb_d verdict +:+
     " for packet " +:+ fmt.verb_d pid +:+ "").
  by rewrite append_empty_r, !verb_d_decimal.
Qed.

Section Verdicts.
Context `{Env}.

Lemma setVerdict_one_call (p : Packet.t) (Q : Queue.t) (w : World)
    (verdict len : Z) (buffer : option (list byte)) :
  heap w !! Packet.q p = Some Q →
  one_call (setVerdict p verdict len buffer) w
    (verdict_call p Q verdict len buffer)
    (verdict_error verdict (Packet.id p)).
Proof.
  intros Hq. unfold one_call, setVerdict, func, seq, deref, call.
  unfold mbind, Go_bind. rewrite Hq. cbn [trace heap queueRegistry].
  unfold verdict_call, fmt.Errorf. rewrite Sprintf_verdict.
  destruct (_ <? 0); reflexivity.
Qed.

(** C5. On a packet whose queue is live, [Accept] makes exactly one call
    of [nfq_set_verdict], with the verdict [NF_ACCEPT], length 0 and no
    buffer; [Drop] makes exactly one, with [NF_DROP], length 0 and no
    buffer; [Modify] with a buffer that has a first byte makes exactly
    one, with [NF_ACCEPT], the length of the buffer as a 32-bit number and
    the buffer itself.  Each call carries the binding of the packet's
    queue and the packet's id.  When the call answers with a negative
    number the error returned reads "Error setting verdict V for packet
    N", with the verdict and the packet id in decimal; the call is not
    made again. *)
Theorem verdicts_issue_one_call (p : Packet.t) (Q : Queue.t) (w : World)
    (b : byte) (bs : list byte) :
  heap w !! Packet.q p = Some Q →
  one_call (Accept p) w
    (verdict_call p Q NF_ACCEPT 0 None)
    (verdict_error NF_ACCEPT (Packet.id p)) ∧
  one_call (Drop p) w
    (verdict_call p Q NF_DROP 0 None)
    (verdict_error NF_DROP (Packet.id p)) ∧
  one_call (Modify p (b :: bs)) w
    (verdict_call p Q NF_ACCEPT
       (Z.of_nat (length (b :: bs)) mod 2 ^ 32) (Some (b :: bs)))
    (verdict_error NF_ACCEPT (Packet.id p)).
Proof.
  intros Hq. repeat split; by apply setVerdict_one_call.
Qed.

(** C2, what the code does on the empty buffer.  [Modify] with a buffer
    of length zero panics on [&buffer[0]]: the run ends with the run-time
    panic of an index out of range, not with an error value, and the
    world is as it was, so no verdict call was made. *)
Theorem Modify_empty_buffer_panics (p : Packet.t) (w : World) :
  Modify p [] w = (Panic "index out of range", w).
Proof. reflexivity. Qed.

End Verdicts.

(** ** PacketMeta *)

Lemma verb_02X_byte (b : byte) : fmt.verb_02X (operand b) = hex_pair b.
Proof. destruct b; reflexivity. Qed.

Lemma Sprintf_mac (b0 b1 b2 b3 b4 b5 : byte) :
  fmt.Sprintf "%02X:%02X:%02X:%02X:%02X:%02X"
    (operand <$> [b0; b1; b2; b3; b4; b5]) =
  hex_pair b0 +:+ ":" +:+ hex_pair b1 +:+ ":" +:+ hex_pair b2 +:+ ":" +:+
  hex_pair b3 +:+ ":" +:+ hex_pair b4 +:+ ":" +:+ hex_pair b5.
Proof.
  change (fmt.Sprintf _ _) with
    (fmt.verb_02X (operand b0) +:+ ":" +:+ fmt.verb_02X (operand b1) +:+ ":" +:+
     fmt.verb_02X (operand b2) +:+ ":" +:+ fmt.verb_02X (operand b3) +:+ ":" +:+
     fmt.verb_02X (operand b4) +:+ ":" +:+ fmt.verb_02X (operand b5) +:+ "").
  by rewrite append_empty_r, !verb_02X_byte.
Qed.

Lemma int_of_uint32 (x : Z) : is_uint32 x → int x = x.
Proof.
  unfold is_uint32, int. intros Hx.
  rewrite Z.mod_small; lia.
Qed.

(** C7. When [HWAddr] has at least six bytes, [MACAddr] returns, without a
    panic, the first six of them and nothing else, each as its two
    uppercase hexadecimal digits, with a colon between one pair and the
    next: seventeen characters in all. *)
Theorem MACAddr_six_hex_pairs (m : PacketMeta) :
  (6 ≤ length (HWAddr m))%nat →
  ∃ b0 b1 b2 b3 b4 b5 s,
    take 6 (HWAddr m) = [b0; b1; b2; b3; b4; b5] ∧
    MACAddr m = Ret s ∧
    s = hex_pair b0 +:+ ":" +:+ hex_pair b1 +:+ ":" +:+ hex_pair b2 +:+ ":" +:+
        hex_pair b3 +:+ ":" +:+ hex_pair b4 +:+ ":" +:+ hex_pair b5 ∧
    String.length s = 17%nat.
Proof.
  unfold MACAddr. intros Hlen.
  destruct (HWAddr m) as [| b0 [| b1 [| b2 [| b3 [| b4 [| b5 rest]]]]]];
    cbn [length] in Hlen; try lia.
  exists b0, b1, b2, b3, b4, b5. eexists.
  split; [reflexivity |].
  split; [cbn [index lookup list_lookup mbind outcome_bind mret outcome_ret];
          by rewrite Sprintf_mac |].
  split; reflexivity.
Qed.

Section Names.
Context `{Env}.

(** C8. Each of the four accessors looks its interface index up and
    returns the name of the interface found, or the empty string when the
    lookup fails; its result is a string in every case, never an error.
    The index looked up is the field itself, for every value a [uint32]
    can hold. *)
Theorem DevName_best_effort (m : PacketMeta) :
  is_uint32 (InDev m) → is_uint32 (OutDev m) →
  is_uint32 (PhysInDev m) → is_uint32 (PhysOutDev m) →
  InDevName m = name_or_empty (InterfaceByIndex (InDev m)) ∧
  OutDevName m = name_or_empty (InterfaceByIndex (OutDev m)) ∧
  PhysInDevName m = name_or_empty (InterfaceByIndex (PhysInDev m)) ∧
  PhysOutDevName m = name_or_empty (InterfaceByIndex (PhysOutDev m)).
Proof.
  intros Hi Ho Hpi Hpo.
  unfold InDevName, OutDevName, PhysInDevName, PhysOutDevName.
  rewrite !int_of_uint32 by assumption.
  unfold name_or_empty. repeat split; by case_match.
Qed.

End Names.

(** ** Construction and the registry *)

Section Construction.
Context `{Env}.

(** C6. [NewQueue] returns, without a panic, the address of a queue that
    was not there before, built from the id and the handler given, and
    leaves the registry with that address under that id: [Lookup] of the
    id returns this very address (and changes nothing), and the entries
    of other ids are as they were.  This holds whatever the registry held
    under the id before: [Register] runs to its end in every world, with
    no error to return, and what [Lookup] returns afterwards is the queue
    registered last. *)
Theorem NewQueue_registers_queue (queueID : Z) (handler : PacketHandler)
    (cfg : option QueueConfig) (w : World) :
  wp (NewQueue queueID handler cfg) w (λ q w',
    heap w !! q = None ∧
    (∃ Q, heap w' !! q = Some Q ∧
          Queue.ID Q = queueID ∧ Queue.handler Q = handler) ∧
    Lookup queueID w' = (Ret (Some q), w') ∧
    (∀ other, other ≠ queueID →
       queueRegistry w' !! other = queueRegistry w !! other) ∧
    ∀ q2, wp (Register queueID q2) w' (λ _ w'',
      Lookup queueID w'' = (Ret (Some q2), w'') ∧
      heap w'' = heap w' ∧ trace w'' = trace w')).
Proof.
  unfold NewQueue. wp_run.
  split; [apply not_elem_of_dom, is_fresh |].
  split; [eexists; split; [apply lookup_insert_eq | done] |].
  split; [unfold Lookup; cbn [queueRegistry]; by rewrite lookup_insert_eq |].
  split; [intros other Hne; by apply lookup_insert_ne |].
  intros q2. wp_run.
  split; [| done].
  unfold Lookup; cbn [queueRegistry]. by rewrite lookup_insert_eq.
Qed.

(** C10. [NewQueue] with a nil configuration runs exactly as with the
    configuration whose fields are all zero: no panic, and the queue it
    builds holds [MaxPackets = 0], no flags and [BufferSize = 0].
    [Start] on that queue hands the kernel no queue depth, no flags and
    no buffer size. *)
Theorem NewQueue_nil_config (queueID : Z) (handler : PacketHandler)
    (w : World) :
  let zero := {| MaxPackets := 0; QueueFlags := []; BufferSize := 0 |} in
  NewQueue queueID handler None w = NewQueue queueID handler (Some zero) w ∧
  wp (NewQueue queueID handler None) w (λ q w',
    Queue.cfg <$> heap w' !! q = Some (Some zero) ∧
    wp (Start q) w' (λ e w'', ∃ evs,
      trace w'' = trace w' ++ evs ∧
      maxlen_calls evs = [] ∧ flags_calls evs = [] ∧ rcvbuf_calls evs = [])).
Proof.
  intros zero. split; [reflexivity |].
  unfold NewQueue. wp_run.
  split; [by rewrite lookup_insert_eq |].
  unfold Start. wp_run.
  all: wp_events; done.
Qed.

End Construction.

(** ** The flag mask *)

Section Flags.
Context `{Env}.

(** X16. [Start] sets queue flags exactly when the list of flags is not
    empty and the run gets as far as that step, once, and whatever the
    flags of the configuration, the mask and the flags it hands to the
    kernel are both zero.  The run does get as far as that step, unless a
    call of an earlier step reported a failure and [Start] returned its
    error. *)
Lemma Start_flag_mask (q : loc) (w : World) (Q : Queue.t)
    (c : QueueConfig) :
  heap w !! q = Some Q → Queue.cfg Q = Some c →
  wp (Start q) w (λ e w', ∃ evs,
    trace w' = trace w ++ evs ∧
    flags_calls evs =
      (if (0 <? Z.of_nat (length (QueueFlags c))) && reached 5 evs
       then [(0, 0)] else []) ∧
    (reached 5 evs = true ∨ failed_before 5 evs e)).
Proof.
  intros Hq Hc. unfold Start. wp_run.
  all: wp_events.
  all: split; [rewrite ?fold_flags_zero, ?andb_false_r; done |].
  all: first [by left | right; wp_failed_before].
Qed.

End Flags.

(** C1, what the code does.  The loop of [Start] folds the flags with
    [&=] from a zero mask, so the mask it composes is zero for every list
    of flags.  For the flags connection-tracking and uid/gid-dump the
    bitwise OR of the two bits is 10, the mask composed is 0, and on a C
    side where every call succeeds [Start] hands the kernel the mask 0. *)
Theorem Start_flags_mask_is_zero :
  Z.lor Conntrack UIDGid = 10 ∧
  fold_flags [Conntrack; UIDGid] = 0 ∧
  (∀ l, fold_flags l = 0) ∧
  (let run := with_queue (H := linux all_ok) tt 5 (Some full_config) Start in
   run.1 = Ret None ∧ flags_calls (trace run.2) = [(0, 0)]).
Proof.
  split; [reflexivity |]. split; [reflexivity |].
  split; [apply fold_flags_zero |]. split; vm_compute; reflexivity.
Qed.

(** ** Stop when a release fails *)

(** C3, against the claim.  When closing the descriptor fails, [Stop]
    returns at once: of the three releases only [close] is called, the
    binding is not destroyed and the context is not closed. *)
Lemma Stop_abandons_cleanup_when_close_fails :
  let E := linux (failing is_close) in
  let run := with_queue (H := E) tt 5 None
               (λ q, Start q ;; Stop q) in
  run.1 = Ret (Some "Error closing fd") ∧
  filter (λ ev, releases ev.1 = true) (trace run.2) = [(C.close 3, -1)] ∧
  ¬ ∃ r, (C.nfq_destroy_queue 9, r) ∈ trace run.2 ∨
         (C.nfq_close 7, r) ∈ trace run.2.
Proof.
  cbv zeta. split; [vm_compute; reflexivity |].
  split; [vm_compute; reflexivity |].
  intros [r [Hin | Hin]]; vm_compute in Hin.
  all: repeat (apply elem_of_cons in Hin as [Heq | Hin]; [discriminate Heq |]).
  all: by apply elem_of_nil in Hin.
Qed.

(** ** The theorems at concrete inputs *)

(** [Start] on a C side where setting the mode fails. *)
Lemma Start_ordered_abort_without_release_witness :
  let E := linux (failing is_set_mode) in
  let Q := started_queue (H := E) tt (Some full_config) in
  let w := world_of Q in
  heap w !! 1%positive = Some Q ∧ Queue.cfg Q = Some full_config ∧
  wp (Start 1%positive) w (λ e w', ∃ evs,
    trace w' = trace w ++ evs ∧
    head (orders evs) = Some 1%nat ∧
    StronglySorted lt (orders evs) ∧
    Forall (λ ev, releases ev.1 = false) evs ∧
    Forall (λ ev, reports_failure ev = false) (removelast evs) ∧
    ∃ lst, last evs = Some lst ∧ e = error_after lst ∧
      Forall (λ k, k ≤ start_order lst.1 → k ∈ orders evs)%nat
        [1; 2; 3; 6; 9]%nat ∧
      (e = None → start_order lst.1 = 9%nat) ∧
      (∀ c', e = Some (step_error c') →
         start_order c' = start_order lst.1)).
Proof.
  intros E Q w.
  split; [reflexivity |]. split; [reflexivity |].
  apply (Start_ordered_abort_without_release (H := E) 1%positive w Q full_config);
    reflexivity.
Defined.

(** [Start] with every option set, on a C side where every call succeeds. *)
Lemma Start_optional_depth_and_buffer_witness :
  let E := linux all_ok in
  let Q := started_queue (H := E) tt (Some full_config) in
  let w := world_of Q in
  heap w !! 1%positive = Some Q ∧ Queue.cfg Q = Some full_config ∧
  wp (Start 1%positive) w (λ e w', ∃ evs,
    trace w' = trace w ++ evs ∧
    maxlen_calls evs =
      (if (0 <? MaxPackets full_config) && reached 4 evs
       then [MaxPackets full_config] else []) ∧
    rcvbuf_calls evs =
      (if (0 <? BufferSize full_config) && reached 7 evs
       then [BufferSize full_config] else []) ∧
    (rcvbuf_calls evs ≠ [] → reached 9 evs = true) ∧
    (MaxPackets full_config = 0 → 4%nat ∉ orders evs) ∧
    (BufferSize full_config = 0 →
       (7%nat ∉ orders evs) ∧ (8%nat ∉ orders evs)) ∧
    (e = None ∨ ∃ msg, e = Some msg ∧ msg ∈ start_errors) ∧
    (reached 4 evs = true ∨ failed_before 4 evs e) ∧
    (reached 7 evs = true ∨ failed_before 7 evs e) ∧
    (e = None →
     maxlen_calls evs = (if 0 <? MaxPackets full_config then [MaxPackets full_config] else []) ∧
     rcvbuf_calls evs = (if 0 <? BufferSize full_config then [BufferSize full_config] else []))).
Proof.
  intros E Q w.
  split; [reflexivity |]. split; [reflexivity |].
  apply (Start_optional_depth_and_buffer (H := E) 1%positive w Q full_config);
    reflexivity.
Defined.

(** [Stop] on a C side where destroying the binding fails. *)
Lemma Stop_releases_in_order_until_failure_witness :
  let E := linux (failing (λ c, bool_decide (stop_order c = 2%nat))) in
  let Q := started_queue (H := E) tt None in
  let w := world_of Q in
  heap w !! 1%positive = Some Q ∧
  wp (Stop 1%positive) w (λ e w', ∃ evs,
    trace w' = trace w ++ evs ∧
    heap w' = heap w ∧
    evs.*1 `prefix_of`
      [ C.close (Queue.fd Q); C.nfq_destroy_queue (Queue.qh Q);
        C.nfq_close (Queue.h Q) ] ∧
    Forall (λ ev, reports_failure ev = false) (removelast evs) ∧
    ∃ lst, last evs = Some lst ∧ e = error_after lst ∧
      (e = None → length evs = 3%nat) ∧
      (∀ c', e = Some (step_error c') →
         stop_order c' = stop_order lst.1)).
Proof.
  intros E Q w.
  split; [reflexivity |].
  apply (Stop_releases_in_order_until_failure (H := E) 1%positive w Q);
    reflexivity.
Defined.

(** The three verdicts on packet 77, on a C side that refuses verdicts. *)
Lemma verdicts_issue_one_call_witness :
  let E := linux (failing is_set_verdict) in
  let Q := started_queue (H := E) tt None in
  let w := world_of Q in
  let p := packet_of 77 in
  heap w !! Packet.q p = Some Q ∧
  verdict_error NF_ACCEPT (Packet.id p) =
    "Error setting verdict 1 for packet 77" ∧
  one_call (Accept p) w
    (verdict_call p Q NF_ACCEPT 0 None)
    (verdict_error NF_ACCEPT (Packet.id p)) ∧
  one_call (Drop p) w
    (verdict_call p Q NF_DROP 0 None)
    (verdict_error NF_DROP (Packet.id p)) ∧
  one_call (Modify p [x42; x43]) w
    (verdict_call p Q NF_ACCEPT
       (Z.of_nat (length [x42; x43]) mod 2 ^ 32)
       (Some [x42; x43]))
    (verdict_error NF_ACCEPT (Packet.id p)).
Proof.
  intros E Q w p.
  split; [reflexivity |]. split; [reflexivity |].
  apply (verdicts_issue_one_call (H := E) p Q w x42 [x43]).
  reflexivity.
Defined.

(** The hardware address AA:BB:CC:DD:EE:FF. *)
Lemma MACAddr_six_hex_pairs_witness :
  let m := meta_of [xaa; xbb; xcc; xdd; xee; xff] 0 0 0 0 in
  (6 ≤ length (HWAddr m))%nat ∧
  MACAddr m = Ret "AA:BB:CC:DD:EE:FF" ∧
  ∃ b0 b1 b2 b3 b4 b5 s,
    take 6 (HWAddr m) = [b0; b1; b2; b3; b4; b5] ∧
    MACAddr m = Ret s ∧
    s = hex_pair b0 +:+ ":" +:+ hex_pair b1 +:+ ":" +:+ hex_pair b2 +:+ ":" +:+
        hex_pair b3 +:+ ":" +:+ hex_pair b4 +:+ ":" +:+ hex_pair b5 ∧
    String.length s = 17%nat.
Proof.
  intros m.
  split; [cbn; lia |]. split; [reflexivity |].
  apply (MACAddr_six_hex_pairs m). cbn; lia.
Defined.

(** Interface 2 is eth0, 42 does not exist, 0 is no index, 1 is lo. *)
Lemma DevName_best_effort_witness :
  let E := linux all_ok in
  let m := meta_of [] 2 42 0 1 in
  (is_uint32 (InDev m) ∧ is_uint32 (OutDev m) ∧
   is_uint32 (PhysInDev m) ∧ is_uint32 (PhysOutDev m)) ∧
  (InDevName m = "eth0" ∧ OutDevName m = "" ∧
   PhysInDevName m = "" ∧ PhysOutDevName m = "lo") ∧
  InDevName m = name_or_empty (InterfaceByIndex (InDev m)) ∧
  OutDevName m = name_or_empty (InterfaceByIndex (OutDev m)) ∧
  PhysInDevName m = name_or_empty (InterfaceByIndex (PhysInDev m)) ∧
  PhysOutDevName m = name_or_empty (InterfaceByIndex (PhysOutDev m)).
Proof.
  intros E m.
  split; [unfold is_uint32; cbn; lia |].
  split; [repeat split; reflexivity |].
  apply (DevName_best_effort (H := E) m); unfold is_uint32; cbn; lia.
Defined.

(** * Further properties of the code *)

(** ** Start: the handles it threads and stores *)

Section Handles.
Context `{Env}.

(** X1. The calls of [Start] are an initial part of one script: each later
    call is made on the handle an earlier call returned, the queue is bound
    under its own id, the mode is always packet copy with the maximal
    range, and the loop runs on the context and the descriptor obtained.
    When [Start] returns [nil] the script was run to its end. *)
Theorem Start_threads_handles (q : loc) (w : World) (Q : Queue.t)
    (c : QueueConfig) :
  heap w !! q = Some Q → Queue.cfg Q = Some c →
  wp (Start q) w (λ e w', ∃ evs,
    trace w' = trace w ++ evs ∧
    evs.*1 `prefix_of`
      start_script (Queue.ID Q) c (returned 1 evs) (returned 2 evs)
        (returned 6 evs) (returned 7 evs) ∧
    (e = None →
     evs.*1 = start_script (Queue.ID Q) c (returned 1 evs) (returned 2 evs)
                (returned 6 evs) (returned 7 evs))).
Proof.
  intros Hq Hc. unfold Start. wp_run.
  all: wp_events.
  all: unfold start_script; rewrite_hyps; cbn -[Z.ltb Z.eqb].
  all: split; [eexists; cbn [app]; reflexivity |].
  all: done.
Qed.

(** X2. [Start] changes the queue it runs on and nothing else: the queue
    keeps its id, its handler and its configuration; its context is what
    [nfq_open] returned, its binding what [nfqueue_create_queue] returned
    and its descriptor what [nfq_fd] returned, each from the moment the
    call was made, also when [Start] fails later or the call itself failed.
    The other queues and the registry are as before. *)
Theorem Start_stores_handles (q : loc) (w : World) (Q : Queue.t)
    (c : QueueConfig) :
  heap w !! q = Some Q → Queue.cfg Q = Some c →
  wp (Start q) w (λ e w', ∃ evs Q',
    trace w' = trace w ++ evs ∧
    heap w' = <[q := Q']> (heap w) ∧
    queueRegistry w' = queueRegistry w ∧
    Queue.ID Q' = Queue.ID Q ∧
    Queue.handler Q' = Queue.handler Q ∧
    Queue.cfg Q' = Queue.cfg Q ∧
    Queue.h Q' = returned 1 evs ∧
    Queue.qh Q' = (if reached 2 evs then returned 2 evs else Queue.qh Q) ∧
    Queue.fd Q' = (if reached 6 evs then returned 6 evs else Queue.fd Q)).
Proof.
  intros Hq Hc. unfold Start. wp_run.
  all: do 2 eexists; split; [rewrite <- ?app_assoc; cbn [app]; reflexivity |].
  all: split; [rewrite ?insert_insert_eq; reflexivity |].
  all: cbn -[Z.ltb Z.eqb] in *; done.
Qed.

(** X3. After a [Start] that returned [nil], [Stop] gives back what that
    [Start] acquired: it closes the descriptor [nfq_fd] returned, then
    destroys the binding [nfqueue_create_queue] returned, then closes the
    context [nfq_open] returned, as far as no release fails. *)
Theorem Start_then_Stop_releases_acquired (q : loc) (w : World)
    (Q : Queue.t) (c : QueueConfig) :
  heap w !! q = Some Q → Queue.cfg Q = Some c →
  wp (Start q) w (λ e w', ∃ evs,
    trace w' = trace w ++ evs ∧
    (e = None →
     wp (Stop q) w' (λ e' w'', ∃ evs',
       trace w'' = trace w' ++ evs' ∧
       evs'.*1 `prefix_of`
         stop_script (returned 6 evs) (returned 2 evs) (returned 1 evs) ∧
       (e' = None →
        evs'.*1 =
          stop_script (returned 6 evs) (returned 2 evs) (returned 1 evs))))).
Proof.
  intros Hq Hc. unfold Start. wp_run.
  all: eexists; split; [rewrite <- ?app_assoc; cbn [app]; reflexivity |].
  all: intros He; try discriminate He.
  all: unfold Stop; wp_run.
  all: wp_events.
  all: split; [eexists; reflexivity | done].
Qed.

End Handles.

(** ** Stop: what it leaves behind *)

Section StopAgain.
Context `{Env}.

(** X4. [Stop] leaves every queue, the stopped one too, and the registry
    as they were: the handles stay in the queue.  So a second [Stop], after
    one that returned [nil], closes the same descriptor again and goes on
    to the same binding and context. *)
Theorem Stop_twice_repeats_releases (q : loc) (w : World) (Q : Queue.t) :
  heap w !! q = Some Q →
  wp (Stop q) w (λ e w',
    heap w' = heap w ∧ queueRegistry w' = queueRegistry w ∧
    (e = None →
     wp (Stop q) w' (λ e' w'', ∃ evs',
       trace w'' = trace w' ++ evs' ∧
       head evs'.*1 = Some (C.close (Queue.fd Q)) ∧
       evs'.*1 `prefix_of`
         stop_script (Queue.fd Q) (Queue.qh Q) (Queue.h Q)))).
Proof.
  intros Hq. unfold Stop. wp_run.
  all: split; [reflexivity |]; split; [reflexivity |].
  all: intros He; try discriminate He.
  all: wp_run.
  all: wp_events.
  all: split; [reflexivity | eexists; reflexivity].
Qed.

(** X5. [Stop] on a queue that was built and never started releases what
    [NewQueue] put in it: its first call closes descriptor 0, and the
    binding and the context it goes on to are null pointers. *)
Theorem Stop_unstarted_closes_descriptor_zero (queueID : Z)
    (handler : PacketHandler) (cfg : option QueueConfig) (w : World) :
  wp (NewQueue queueID handler cfg) w (λ q w',
    trace w' = trace w ∧
    wp (Stop q) w' (λ e w'', ∃ evs,
      trace w'' = trace w' ++ evs ∧
      head evs.*1 = Some (C.close 0) ∧
      evs.*1 `prefix_of` stop_script 0 nil nil)).
Proof.
  unfold NewQueue. wp_run. split; [reflexivity |].
  unfold Stop. wp_run.
  all: wp_events.
  all: split; [reflexivity | eexists; reflexivity].
Qed.

End StopAgain.

(** ** Nil pointers *)

Section Outcomes.
Context `{Env}.

Lemma wpo_ret {A} (a : A) w post : post (Ret a) w → wpo (mret a) w post.
Proof. intros Hp. exists (Ret a), w. split; [reflexivity | exact Hp]. Qed.

Lemma wpo_panic {A} msg w (post : outcome A → World → Prop) :
  post (Panic msg) w → wpo (panic msg) w post.
Proof. intros Hp. exists (Panic msg), w. split; [reflexivity | exact Hp]. Qed.

Lemma wpo_bind {A B} (m : Go A) (f : A → Go B) w post :
  wpo m w (λ o w', match o with
                   | Ret a => wpo (f a) w' post
                   | Panic msg => post (Panic msg) w'
                   end) →
  wpo (m ≫= f) w post.
Proof.
  intros (o & w' & Hm & Hp). destruct o as [a | msg].
  - destruct Hp as (o' & w'' & Hf & Hp). exists o', w''.
    split; [| exact Hp]. unfold mbind, Go_bind. by rewrite Hm.
  - exists (Panic msg), w'. split; [| exact Hp].
    unfold mbind, Go_bind. by rewrite Hm.
Qed.

Lemma wpo_call (c : C.call) w post :
  (∀ r, post (Ret r) {| trace := trace w ++ [(c, r)]; heap := heap w;
                        queueRegistry := queueRegistry w |}) →
  wpo (call c) w post.
Proof. intros Hp. eexists _, _. split; [reflexivity |]. apply Hp. Qed.

Lemma wpo_deref q Q w post :
  heap w !! q = Some Q → post (Ret Q) w → wpo (deref q) w post.
Proof. intros Hq Hp. exists (Ret Q), w. unfold deref. by rewrite Hq. Qed.

Lemma wpo_deref_nil q w post :
  heap w !! q = None → post (Panic nil_dereference) w →
  wpo (deref q) w post.
Proof.
  intros Hq Hp. exists (Panic nil_dereference), w. unfold deref.
  by rewrite Hq.
Qed.

Lemma wpo_assign q f Q w post :
  heap w !! q = Some Q →
  post (Ret tt) {| trace := trace w; heap := <[q := f Q]> (heap w);
                   queueRegistry := queueRegistry w |} →
  wpo (assign q f) w post.
Proof. intros Hq Hp. eexists _, _. unfold assign. rewrite Hq. eauto. Qed.

Lemma wpo_deref_cfg_nil q Q w post :
  heap w !! q = Some Q → Queue.cfg Q = None →
  post (Panic nil_dereference) w → wpo (deref_cfg q) w post.
Proof.
  intros Hq Hc Hp. unfold deref_cfg. apply wpo_bind.
  apply (wpo_deref q Q); [done |]. rewrite Hc. by apply wpo_panic.
Qed.

Lemma wpo_seq (s k : Go (option error)) w post :
  wpo s w (λ o w', match o with
                   | Ret (Some e) => post (Ret (Some e)) w'
                   | Ret None => wpo k w' post
                   | Panic msg => post (Panic msg) w'
                   end) →
  wpo (s ;;; k) w post.
Proof.
  intros (o & w' & Hs & Hp). unfold seq. apply wpo_bind.
  exists o, w'. split; [done |].
  destruct o as [[e |] | msg]; [by apply wpo_ret | done | done].
Qed.

Lemma wpo_func (body : Go (option error)) w post :
  wpo body w (λ o w', match o with
                      | Ret (Some e) => post (Ret e) w'
                      | Ret None => post (Panic "missing return") w'
                      | Panic msg => post (Panic msg) w'
                      end) →
  wpo (func body) w post.
Proof.
  intros (o & w' & Hs & Hp). unfold func. apply wpo_bind.
  exists o, w'. split; [done |].
  destruct o as [[e |] | msg]; [by apply wpo_ret | by apply wpo_panic | done].
Qed.

End Outcomes.

Ltac wpo_rule :=
  lazymatch goal with
  | |- wpo (func _) _ _ => apply wpo_func
  | |- wpo (seq _ _) _ _ => apply wpo_seq
  | |- wpo (mbind _ _) _ _ => apply wpo_bind
  | |- wpo (call _) _ _ => apply wpo_call; intros ?
  | |- wpo (deref _) _ _ =>
      first [ eapply wpo_deref; [wp_heap |]
            | apply wpo_deref_nil; [cbn [heap]; assumption |] ]
  | |- wpo (deref_cfg _) _ _ =>
      eapply wpo_deref_cfg_nil; [wp_heap | cbn; eassumption |]
  | |- wpo (assign _ _) _ _ => eapply wpo_assign; [wp_heap |]
  | |- wpo (returns _) _ _ => apply wpo_ret
  | |- wpo next _ _ => apply wpo_ret
  | |- wpo (mret _) _ _ => apply wpo_ret
  | |- wpo (panic _) _ _ => apply wpo_panic
  | |- wpo (if ?b then _ else _) _ _ => destruct b eqn:?
  end.

Ltac wpo_run := repeat (wpo_rule; cbn [trace heap queueRegistry]).

Section Nil.
Context `{Env}.

(** X6. On a queue whose configuration is nil (a [Queue] that [NewQueue]
    did not build) [Start] never returns [nil] and never gets past setting
    the mode: either one of the first three calls fails and [Start] returns
    the error of that step, or all three succeed and [Start] panics on the
    nil configuration, with the context open and the queue bound. *)
Theorem Start_nil_config_panics (q : loc) (w : World) (Q : Queue.t) :
  heap w !! q = Some Q → Queue.cfg Q = None →
  wpo (Start q) w (λ o w', ∃ evs,
    trace w' = trace w ++ evs ∧
    orders evs `prefix_of` [1; 2; 3]%nat ∧
    Forall (λ ev, reports_failure ev = false) (removelast evs) ∧
    ∃ lst, last evs = Some lst ∧
      o = (if reports_failure lst then Ret (Some (step_error lst.1))
           else Panic nil_dereference) ∧
      (reports_failure lst = false → orders evs = [1; 2; 3]%nat)).
Proof.
  intros Hq Hc. unfold Start. wpo_run.
  all: wp_events.
  all: split; [by eexists |].
  all: split; [repeat (constructor; [wp_succeeded |]); constructor |].
  all: eexists; split; [reflexivity |].
  all: cbn -[Z.ltb Z.eqb]; rewrite_hyps; done.
Qed.

(** X7. [Stop] through a nil pointer panics before any call is made. *)
Theorem Stop_nil_queue_panics (q : loc) (w : World) :
  heap w !! q = None → Stop q w = (Panic nil_dereference, w).
Proof.
  intros Hq. unfold Stop, func, seq, mbind, Go_bind, deref.
  by rewrite Hq.
Qed.

(** X8. A verdict on a packet whose queue pointer is nil panics before any
    call is made: no verdict reaches the kernel. *)
Theorem verdict_nil_queue_panics (p : Packet.t) (w : World) (b : byte)
    (bs : list byte) :
  heap w !! Packet.q p = None →
  Accept p w = (Panic nil_dereference, w) ∧
  Drop p w = (Panic nil_dereference, w) ∧
  Modify p (b :: bs) w = (Panic nil_dereference, w).
Proof.
  intros Hq. unfold Accept, Drop, Modify, index. cbn [lookup list_lookup].
  unfold setVerdict, func, seq, mbind, Go_bind, deref.
  by rewrite Hq.
Qed.

End Nil.

(** ** Verdicts, again *)

Section VerdictsAgain.
Context `{Env}.

(** X9. Nothing makes a verdict final: [Accept] followed by [Drop] on the
    same packet makes two verdict calls, both on the packet's id and the
    queue's binding, the second whatever the first one answered; what the
    pair returns is the result of the second. *)
Theorem verdicts_are_not_one_shot (p : Packet.t) (Q : Queue.t) (w : World) :
  heap w !! Packet.q p = Some Q →
  ∃ r1 r2,
    (Accept p ;; Drop p) w =
      (Ret (if r2 <? 0
            then Some (verdict_error NF_DROP (Packet.id p)) else None),
       {| trace := trace w ++
                   [ (verdict_call p Q NF_ACCEPT 0 None, r1);
                     (verdict_call p Q NF_DROP 0 None, r2) ];
          heap := heap w; queueRegistry := queueRegistry w |}).
Proof.
  intros Hq.
  pose proof (setVerdict_one_call p Q w NF_ACCEPT 0 None Hq) as Ha.
  unfold one_call in Ha. cbv zeta in Ha.
  eexists _, _. unfold mbind, Go_bind, Accept, Drop. rewrite Ha.
  match goal with
  | |- setVerdict _ _ _ _ ?w1 = _ =>
      pose proof (setVerdict_one_call p Q w1 NF_DROP 0 None Hq) as Hd
  end.
  unfold one_call in Hd. cbv zeta in Hd. rewrite Hd.
  cbn [trace heap queueRegistry]. by rewrite <- app_assoc.
Qed.

(** X10. [Stop] does not cut a packet off from its queue: after [Stop],
    whatever it returned, a verdict on a packet of the stopped queue still
    makes its call, on the binding [Stop] was to destroy. *)
Theorem verdict_after_Stop_uses_same_binding (p : Packet.t) (Q : Queue.t)
    (w : World) :
  heap w !! Packet.q p = Some Q →
  wp (Stop (Packet.q p)) w (λ _ w',
    one_call (Accept p) w'
      (verdict_call p Q NF_ACCEPT 0 None)
      (verdict_error NF_ACCEPT (Packet.id p))).
Proof.
  intros Hq. unfold Stop. wp_run.
  all: by apply setVerdict_one_call.
Qed.

(** X11. For a buffer of at least one byte and fewer than 2^32, [Modify]
    hands the kernel the exact length of the buffer. *)
Theorem Modify_passes_exact_length (p : Packet.t) (Q : Queue.t) (w : World)
    (buffer : list byte) :
  heap w !! Packet.q p = Some Q →
  (0 < length buffer)%nat → Z.of_nat (length buffer) < 2 ^ 32 →
  one_call (Modify p buffer) w
    (verdict_call p Q NF_ACCEPT (Z.of_nat (length buffer)) (Some buffer))
    (verdict_error NF_ACCEPT (Packet.id p)).
Proof.
  intros Hq Hpos Hlt. destruct buffer as [| b bs]; [cbn in Hpos; lia |].
  unfold Modify, index. cbn [lookup list_lookup].
  unfold u_int32_t. rewrite Z.mod_small by lia.
  by apply setVerdict_one_call.
Qed.

End VerdictsAgain.

(** ** The hardware address, again *)

(** X12. With fewer than six bytes in [HWAddr], [MACAddr] panics on an
    index out of range; it never returns a shorter address. *)
Theorem MACAddr_short_address_panics (m : PacketMeta) :
  (length (HWAddr m) < 6)%nat → MACAddr m = Panic "index out of range".
Proof.
  unfold MACAddr. intros Hlen.
  destruct (HWAddr m) as [| b0 [| b1 [| b2 [| b3 [| b4 [| b5 rest]]]]]];
    cbn [length] in Hlen; try lia; reflexivity.
Qed.

Lemma parse_hex_pair_inverse (b : byte) :
  ∃ hi lo, hex_pair b = String hi (String lo "") ∧
           parse_hex_pair hi lo = Some b.
Proof. destruct b; do 2 eexists; split; reflexivity. Qed.

Lemma MACAddr_parse (m : PacketMeta) :
  (6 ≤ length (HWAddr m))%nat →
  ∃ s, MACAddr m = Ret s ∧ parse_mac s = Some (take 6 (HWAddr m)).
Proof.
  unfold MACAddr. intros Hlen.
  destruct (HWAddr m) as [| b0 [| b1 [| b2 [| b3 [| b4 [| b5 rest]]]]]];
    cbn [length] in Hlen; try lia.
  eexists. split; [reflexivity |].
  rewrite Sprintf_mac. cbn [take].
  destruct (parse_hex_pair_inverse b0) as (h0 & l0 & -> & P0).
  destruct (parse_hex_pair_inverse b1) as (h1 & l1 & -> & P1).
  destruct (parse_hex_pair_inverse b2) as (h2 & l2 & -> & P2).
  destruct (parse_hex_pair_inverse b3) as (h3 & l3 & -> & P3).
  destruct (parse_hex_pair_inverse b4) as (h4 & l4 & -> & P4).
  destruct (parse_hex_pair_inverse b5) as (h5 & l5 & -> & P5).
  change (parse_mac _) with
    (b ← parse_hex_pair h0 l0; bs ← (
     b ← parse_hex_pair h1 l1; bs ← (
     b ← parse_hex_pair h2 l2; bs ← (
     b ← parse_hex_pair h3 l3; bs ← (
     b ← parse_hex_pair h4 l4; bs ← (
     b ← parse_hex_pair h5 l5; Some [b]);
     Some (b :: bs)); Some (b :: bs)); Some (b :: bs)); Some (b :: bs));
     Some (b :: bs)).
  by rewrite P0, P1, P2, P3, P4, P5.
Qed.

(** X13. The text [MACAddr] returns can be read back: parsing it as pairs
    of uppercase hexadecimal digits with colons between them gives the
    first six bytes of [HWAddr].  So two hardware addresses that
    [MACAddr] renders alike agree on their first six bytes. *)
Theorem MACAddr_reads_back (m m' : PacketMeta) :
  (6 ≤ length (HWAddr m))%nat → (6 ≤ length (HWAddr m'))%nat →
  (∃ s, MACAddr m = Ret s ∧ parse_mac s = Some (take 6 (HWAddr m))) ∧
  (MACAddr m = MACAddr m' → take 6 (HWAddr m) = take 6 (HWAddr m')).
Proof.
  intros Hm Hm'.
  destruct (MACAddr_parse m Hm) as (s & Hs & Hp).
  destruct (MACAddr_parse m' Hm') as (s' & Hs' & Hp').
  split; [by exists s |].
  rewrite Hs, Hs'. intros [= ->]. congruence.
Qed.

(** ** Construction, again *)

Section ConstructionAgain.
Context `{Env}.

(** X14. [NewQueue] makes no call into the C side and disturbs no queue
    that exists: two constructions in a row, with any ids, the same or
    not, give two different queues, the first is as it was built when the
    second is there, and each holds the configuration it was given (the
    zero one for nil) with null handles and descriptor 0. *)
Theorem NewQueue_twice_builds_two_queues
    (id1 id2 : Z) (h1 h2 : PacketHandler) (cfg1 cfg2 : option QueueConfig)
    (w : World) :
  wp (NewQueue id1 h1 cfg1) w (λ q1 w1,
    wp (NewQueue id2 h2 cfg2) w1 (λ q2 w2,
      q1 ≠ q2 ∧
      trace w2 = trace w ∧
      heap w2 !! q1 = heap w1 !! q1 ∧
      (∀ q Q, heap w !! q = Some Q → heap w2 !! q = Some Q) ∧
      ∃ Q2, heap w2 !! q2 = Some Q2 ∧
        Queue.cfg Q2 =
          Some (default {| MaxPackets := 0; QueueFlags := [];
                           BufferSize := 0 |} cfg2) ∧
        Queue.h Q2 = nil ∧ Queue.qh Q2 = nil ∧ Queue.fd Q2 = 0)).
Proof.
  unfold NewQueue. wp_run.
  set (hp := heap w).
  set (Q1 := Queue.Build_t _ id1 h1 _ nil nil 0).
  set (q1 := fresh (dom hp)).
  set (q2 := fresh (dom (<[q1 := Q1]> hp))).
  assert (q1 ∉ dom hp) as Hq1 by apply is_fresh.
  assert (q2 ∉ dom (<[q1 := Q1]> hp)) as Hq2 by apply is_fresh.
  rewrite dom_insert_L in Hq2.
  assert (q1 ≠ q2) as Hne by set_solver.
  split; [done |]. split; [done |].
  split; [by rewrite lookup_insert_ne |].
  split.
  - intros q Q Hq. 
    assert (q ∈ dom hp) by (apply elem_of_dom; eauto).
    rewrite !lookup_insert_ne; [done | set_solver | set_solver].
  - eexists. split; [apply lookup_insert_eq |].
    by destruct cfg2.
Qed.

End ConstructionAgain.

(** ** The further properties at concrete inputs *)

Lemma Start_flag_mask_witness :
  let E := linux all_ok in
  let Q := started_queue (H := E) tt (Some full_config) in
  let w := world_of Q in
  heap w !! 1%positive = Some Q ∧ Queue.cfg Q = Some full_config ∧
  wp (Start 1%positive) w (λ e w', ∃ evs,
    trace w' = trace w ++ evs ∧
    flags_calls evs =
      (if (0 <? Z.of_nat (length (QueueFlags full_config))) && reached 5 evs
       then [(0, 0)] else []) ∧
    (reached 5 evs = true ∨ failed_before 5 evs e)).
Proof.
  intros E Q w. split; [reflexivity |]. split; [reflexivity |].
  apply (Start_flag_mask (H := E) 1%positive w Q full_config); reflexivity.
Defined.

Lemma Start_threads_handles_witness :
  let E := linux all_ok in
  let Q := started_queue (H := E) tt (Some full_config) in
  let w := world_of Q in
  heap w !! 1%positive = Some Q ∧ Queue.cfg Q = Some full_config ∧
  wp (Start 1%positive) w (λ e w', ∃ evs,
    trace w' = trace w ++ evs ∧
    evs.*1 `prefix_of`
      start_script (Queue.ID Q) full_config (returned 1 evs) (returned 2 evs)
        (returned 6 evs) (returned 7 evs) ∧
    (e = None →
     evs.*1 = start_script (Queue.ID Q) full_config (returned 1 evs)
                (returned 2 evs) (returned 6 evs) (returned 7 evs))).
Proof.
  intros E Q w. split; [reflexivity |]. split; [reflexivity |].
  apply (Start_threads_handles (H := E) 1%positive w Q full_config);
    reflexivity.
Defined.

Lemma Start_stores_handles_witness :
  let E := linux (failing is_set_mode) in
  let Q := started_queue (H := E) tt (Some full_config) in
  let w := world_of Q in
  heap w !! 1%positive = Some Q ∧ Queue.cfg Q = Some full_config ∧
  wp (Start 1%positive) w (λ e w', ∃ evs Q',
    trace w' = trace w ++ evs ∧
    heap w' = <[1%positive := Q']> (heap w) ∧
    queueRegistry w' = queueRegistry w ∧
    Queue.ID Q' = Queue.ID Q ∧
    Queue.handler Q' = Queue.handler Q ∧
    Queue.cfg Q' = Queue.cfg Q ∧
    Queue.h Q' = returned 1 evs ∧
    Queue.qh Q' = (if reached 2 evs then returned 2 evs else Queue.qh Q) ∧
    Queue.fd Q' = (if reached 6 evs then returned 6 evs else Queue.fd Q)).
Proof.
  intros E Q w. split; [reflexivity |]. split; [reflexivity |].
  apply (Start_stores_handles (H := E) 1%positive w Q full_config);
    reflexivity.
Defined.

Lemma Start_then_Stop_releases_acquired_witness :
  let E := linux all_ok in
  let Q := started_queue (H := E) tt (Some full_config) in
  let w := world_of Q in
  heap w !! 1%positive = Some Q ∧ Queue.cfg Q = Some full_config ∧
  wp (Start 1%positive) w (λ e w', ∃ evs,
    trace w' = trace w ++ evs ∧
    (e = None →
     wp (Stop 1%positive) w' (λ e' w'', ∃ evs',
       trace w'' = trace w' ++ evs' ∧
       evs'.*1 `prefix_of`
         stop_script (returned 6 evs) (returned 2 evs) (returned 1 evs) ∧
       (e' = None →
        evs'.*1 =
          stop_script (returned 6 evs) (returned 2 evs) (returned 1 evs))))).
Proof.
  intros E Q w. split; [reflexivity |]. split; [reflexivity |].
  apply (Start_then_Stop_releases_acquired (H := E) 1%positive w Q full_config);
    reflexivity.
Defined.

Lemma Stop_twice_repeats_releases_witness :
  let E := linux all_ok in
  let Q := started_queue (H := E) tt None in
  let w := world_of Q in
  heap w !! 1%positive = Some Q ∧
  wp (Stop 1%positive) w (λ e w',
    heap w' = heap w ∧ queueRegistry w' = queueRegistry w ∧
    (e = None →
     wp (Stop 1%positive) w' (λ e' w'', ∃ evs',
       trace w'' = trace w' ++ evs' ∧
       head evs'.*1 = Some (C.close (Queue.fd Q)) ∧
       evs'.*1 `prefix_of`
         stop_script (Queue.fd Q) (Queue.qh Q) (Queue.h Q)))).
Proof.
  intros E Q w. split; [reflexivity |].
  apply (Stop_twice_repeats_releases (H := E) 1%positive w Q); reflexivity.
Defined.

Lemma Start_nil_config_panics_witness :
  let E := linux all_ok in
  let Q := started_queue (H := E) tt None in
  let w := world_of Q in
  heap w !! 1%positive = Some Q ∧ Queue.cfg Q = None ∧
  (Start 1%positive w).1 = Panic nil_dereference ∧
  wpo (Start 1%positive) w (λ o w', ∃ evs,
    trace w' = trace w ++ evs ∧
    orders evs `prefix_of` [1; 2; 3]%nat ∧
    Forall (λ ev, reports_failure ev = false) (removelast evs) ∧
    ∃ lst, last evs = Some lst ∧
      o = (if reports_failure lst then Ret (Some (step_error lst.1))
           else Panic nil_dereference) ∧
      (reports_failure lst = false → orders evs = [1; 2; 3]%nat)).
Proof.
  intros E Q w. split; [reflexivity |]. split; [reflexivity |].
  split; [reflexivity |].
  apply (Start_nil_config_panics (H := E) 1%positive w Q); reflexivity.
Defined.

Lemma Stop_nil_queue_panics_witness :
  let E := linux all_ok in
  let w := empty_world (H := E) in
  heap w !! 1%positive = None ∧
  Stop 1%positive w = (Panic nil_dereference, w).
Proof.
  intros E w. split; [reflexivity |].
  apply (Stop_nil_queue_panics (H := E) 1%positive w). reflexivity.
Defined.

Lemma verdict_nil_queue_panics_witness :
  let E := linux all_ok in
  let w := empty_world (H := E) in
  let p := packet_of 77 in
  heap w !! Packet.q p = None ∧
  Accept p w = (Panic nil_dereference, w) ∧
  Drop p w = (Panic nil_dereference, w) ∧
  Modify p [x42] w = (Panic nil_dereference, w).
Proof.
  intros E w p. split; [reflexivity |].
  apply (verdict_nil_queue_panics (H := E) p w x42 []). reflexivity.
Defined.

Lemma verdicts_are_not_one_shot_witness :
  let E := linux all_ok in
  let Q := started_queue (H := E) tt None in
  let w := world_of Q in
  let p := packet_of 77 in
  heap w !! Packet.q p = Some Q ∧
  ∃ r1 r2,
    (Accept p ;; Drop p) w =
      (Ret (if r2 <? 0
            then Some (verdict_error NF_DROP (Packet.id p)) else None),
       {| trace := trace w ++
                   [ (verdict_call p Q NF_ACCEPT 0 None, r1);
                     (verdict_call p Q NF_DROP 0 None, r2) ];
          heap := heap w; queueRegistry := queueRegistry w |}).
Proof.
  intros E Q w p. split; [reflexivity |].
  apply (verdicts_are_not_one_shot (H := E) p Q w). reflexivity.
Defined.

Lemma verdict_after_Stop_uses_same_binding_witness :
  let E := linux all_ok in
  let Q := started_queue (H := E) tt None in
  let w := world_of Q in
  let p := packet_of 77 in
  heap w !! Packet.q p = Some Q ∧
  wp (Stop (Packet.q p)) w (λ _ w',
    one_call (Accept p) w'
      (verdict_call p Q NF_ACCEPT 0 None)
      (verdict_error NF_ACCEPT (Packet.id p))).
Proof.
  intros E Q w p. split; [reflexivity |].
  apply (verdict_after_Stop_uses_same_binding (H := E) p Q w). reflexivity.
Defined.

Lemma Modify_passes_exact_length_witness :
  let E := linux all_ok in
  let Q := started_queue (H := E) tt None in
  let w := world_of Q in
  let p := packet_of 77 in
  let buffer := [x42; x43; x44] in
  heap w !! Packet.q p = Some Q ∧
  (0 < length buffer)%nat ∧ Z.of_nat (length buffer) < 2 ^ 32 ∧
  one_call (Modify p buffer) w
    (verdict_call p Q NF_ACCEPT 3 (Some buffer))
    (verdict_error NF_ACCEPT (Packet.id p)).
Proof.
  intros E Q w p buffer. split; [reflexivity |].
  split; [cbn; lia |]. split; [cbn; lia |].
  apply (Modify_passes_exact_length (H := E) p Q w buffer);
    [reflexivity | cbn; lia | cbn; lia].
Defined.

Lemma MACAddr_short_address_panics_witness :
  let m := meta_of [xaa; xbb; xcc; xdd; xee] 0 0 0 0 in
  (length (HWAddr m) < 6)%nat ∧ MACAddr m = Panic "index out of range".
Proof.
  intros m. split; [cbn; lia |].
  apply (MACAddr_short_address_panics m). cbn; lia.
Defined.

Lemma MACAddr_reads_back_witness :
  let m := meta_of [xaa; xbb; xcc; xdd; xee; xff; x00] 0 0 0 0 in
  let m' := meta_of [xaa; xbb; xcc; xdd; xee; xff; x01; x02] 0 0 0 0 in
  ((6 ≤ length (HWAddr m))%nat ∧ (6 ≤ length (HWAddr m'))%nat) ∧
  (∃ s, MACAddr m = Ret s ∧ parse_mac s = Some (take 6 (HWAddr m))) ∧
  (MACAddr m = MACAddr m' → take 6 (HWAddr m) = take 6 (HWAddr m')).
Proof.
  intros m m'. split; [split; cbn; lia |].
  apply (MACAddr_reads_back m m'); cbn; lia.
Defined.

(** ** The message of a failed verdict *)

Lemma append_cons (a : ascii) (s t : string) :
  String a s +:+ t = String a (s +:+ t).
Proof. reflexivity. Qed.

Lemma pretty_N_go_no_blank (x : N) : ∀ s,
  no_blank s → no_blank (pretty_N_go x s).
Proof.
  induction (N.lt_wf_0 x) as [x _ IH]; intros s Hs.
  destruct (decide (x = 0)%N) as [-> | Hx]; [by rewrite pretty_N_go_0 |].
  rewrite pretty_N_go_step by lia.
  apply IH; [apply N.div_lt; lia |].
  constructor; [| exact Hs].
  unfold pretty_N_char. by repeat case_match.
Qed.

Lemma pretty_N_no_blank (x : N) : no_blank (pretty x).
Proof.
  unfold pretty, pretty_N. case_decide.
  - by repeat constructor.
  - apply pretty_N_go_no_blank. constructor.
Qed.

Lemma pretty_Z_no_blank (x : Z) : no_blank (pretty x).
Proof.
  destruct x as [| p | p]; unfold pretty, pretty_Z.
  - by repeat constructor.
  - apply pretty_N_no_blank.
  - rewrite append_cons. constructor; [done |]. apply pretty_N_no_blank.
Qed.

(** Two texts that agree, each cut at its first blank, agree before and
    after the cut. *)
Lemma cut_at_blank (s1 : string) : ∀ s2 t1 t2,
  no_blank s1 → no_blank s2 →
  s1 +:+ String " " t1 = s2 +:+ String " " t2 → s1 = s2 ∧ t1 = t2.
Proof.
  induction s1 as [| a s1 IH]; intros [| b s2] t1 t2 H1 H2 Heq.
  - by injection Heq.
  - rewrite append_cons in Heq. injection Heq as <- _.
    by apply Forall_cons in H2 as [? _].
  - rewrite append_cons in Heq. injection Heq as -> _.
    by apply Forall_cons in H1 as [? _].
  - rewrite !append_cons in Heq. injection Heq as -> Heq.
    apply Forall_cons in H1 as [_ H1]. apply Forall_cons in H2 as [_ H2].
    destruct (IH s2 t1 t2 H1 H2 Heq) as [-> ->]. done.
Qed.

Lemma verdict_error_inj (v1 p1 v2 p2 : Z) :
  verdict_error v1 p1 = verdict_error v2 p2 → v1 = v2 ∧ p1 = p2.
Proof.
  unfold verdict_error. intros Heq.
  apply (inj (String.app _)) in Heq.
  change (" for packet " +:+ ?s) with (String " " ("for packet " +:+ s)) in Heq.
  apply cut_at_blank in Heq as [Hv Hp]; [| apply pretty_Z_no_blank ..].
  apply (inj (String.app _)) in Hp.
  split; by apply (inj pretty).
Qed.

Section Message.
Context `{Env}.

(** X15. The error of a failed verdict tells which verdict failed on which
    packet: two verdict calls, on any packets and in any worlds, that
    return the same error were made with the same verdict and the same
    packet id. *)
Theorem verdict_error_tells_verdict_and_packet
    (p1 p2 : Packet.t) (v1 v2 len1 len2 : Z)
    (buf1 buf2 : option (list byte)) (w1 w2 : World) (msg : string) :
  (setVerdict p1 v1 len1 buf1 w1).1 = Ret (Some msg) →
  (setVerdict p2 v2 len2 buf2 w2).1 = Ret (Some msg) →
  v1 = v2 ∧ Packet.id p1 = Packet.id p2.
Proof.
  assert (∀ p v len buf w,
    (setVerdict p v len buf w).1 = Ret (Some msg) →
    msg = verdict_error v (Packet.id p)) as Hmsg.
  { intros p v len buf w Hrun.
    destruct (heap w !! Packet.q p) as [Q |] eqn:Hq.
    - pose proof (setVerdict_one_call p Q w v len buf Hq) as Hone.
      unfold one_call in Hone. cbv zeta in Hone. rewrite Hone in Hrun.
      cbn [fst] in Hrun. case_match; congruence.
    - unfold setVerdict, func, seq, mbind, Go_bind, deref in Hrun.
      rewrite Hq in Hrun. discriminate Hrun. }
  intros H1 H2. apply Hmsg in H1. apply Hmsg in H2.
  apply verdict_error_inj. congruence.
Qed.

End Message.

Lemma verdict_error_tells_verdict_and_packet_witness :
  let E := linux (failing is_set_verdict) in
  let Q := started_queue (H := E) tt None in
  let w := world_of Q in
  let p := packet_of 77 in
  let msg := "Error setting verdict 1 for packet 77" in
  ((setVerdict p 1 0 None w).1 = Ret (Some msg) ∧
   (setVerdict p 1 2 (Some [x42; x43]) w).1 = Ret (Some msg)) ∧
  1 = 1 ∧ Packet.id p = Packet.id p.
Proof.
  intros E Q w p msg. split; [split; reflexivity |].
  apply (verdict_error_tells_verdict_and_packet (H := E)
           p p 1 1 0 2 None (Some [x42; x43]) w w msg); reflexivity.
Defined.
